(** * Titan-cnc: the native image-processing entry points

    A shallow embedding of [app/src/main/cpp/native-lib.cpp] and of the
    OpenCV routines it calls, followed by the properties of the three JNI
    entry points [nativeProcessImage], [nativeApplyDithering] and
    [nativeFindContours]. *)

From Stdlib Require Import ZArith QArith Qround Qabs Qpower List Ascii String.
From Stdlib Require Import DecimalString DecimalPos DecimalZ Lia Lqa.
From stdpp Require Import base option list gmap.

Local Open Scope Z_scope.

(** ** The OpenCV routines used by the program

    The program is a thin layer over [cv::Mat], [cv::cvtColor],
    [cv::threshold], [cv::adaptiveThreshold] and [cv::findContours].  They are
    modelled here after the library's documented behaviour on 8-bit images,
    the depth of the pixel buffer of the specification. *)
Module cv.

(** [cv::Mat] restricted to two-dimensional 8-bit matrices: the header fields
    the program reads and the pixel bytes, row after row, the channels of a
    pixel next to each other. *)
Record Mat : Type := mkMat {
  rows : Z;
  cols : Z;
  channels : Z;
  data : list Z
}.

Definition total (m : Mat) : nat := (Z.to_nat (rows m) * Z.to_nat (cols m))%nat.

(** [Mat::empty()]: no element. *)
Definition empty (m : Mat) : bool := Nat.eqb (total m) 0.

(** The conditions on which the routines below raise [cv::Exception]. *)
Inductive Exception : Type :=
| EmptyInput          (* the assertion that the source is not empty *)
| BadNumberOfChannels (* the channel count is not one the routine takes *)
| UnsupportedFormat   (* the element type is not one the routine takes *)
| BadFlag.            (* a mode outside this model *)

Inductive result (A : Type) : Type :=
| Done (a : A)
| Error (e : Exception).
Arguments Done {A} a.
Arguments Error {A} e.

Inductive ColorConversionCodes : Type := COLOR_BGR2GRAY.

Definition THRESH_BINARY : Z := 0.
Definition THRESH_BINARY_INV : Z := 1.
Definition THRESH_TRUNC : Z := 2.
Definition THRESH_TOZERO : Z := 3.
Definition THRESH_TOZERO_INV : Z := 4.
Definition THRESH_MASK : Z := 7.
Definition THRESH_OTSU : Z := 8.

Inductive AdaptiveThresholdTypes : Type :=
| ADAPTIVE_THRESH_MEAN_C
| ADAPTIVE_THRESH_GAUSSIAN_C.

(** [saturate_cast<uchar>]. *)
Definition saturate_uchar (v : Z) : Z := Z.max 0 (Z.min 255 v).

(** *** Double-precision arithmetic *)

(** [double]: the library computes the level in double precision.  A value
    is modelled by the rational it denotes, and every operation by the exact
    operation followed by [rnd], the rounding to the nearest number with a
    significand of 53 bits, ties to the even significand.  The exponent is
    left unbounded: the quantities of the loop below are either zero or lie
    far inside the normal range.  Infinities and NaN can only arise from an
    image without a pixel, which [getThreshVal_Otsu_8u] sets apart. *)
Definition double : Type := Q.
Bind Scope Q_scope with double.

Definition pow2 (e : Z) : Q := (2 ^ e)%Q.

(** The integer nearest to [y], the even one of the two when [y] lies
    half way. *)
Definition nearest_even (y : Q) : Z :=
  let f := Qfloor y in
  match (y - inject_Z f ?= 1 # 2)%Q with
  | Lt => f
  | Gt => f + 1
  | Eq => if Z.even f then f else f + 1
  end.

(** The exponent [e] of the last bit of the significand of a positive [a]:
    [2^52 <= a / 2^e < 2^53]. *)
Definition binade (a : Q) : Z :=
  let k := Z.log2 (Qnum a) - Z.log2 (Zpos (Qden a)) in
  if Qle_bool (pow2 k) a then k - 52 else k - 53.

Definition rnd (x : Q) : double :=
  let x := Qred x in
  if Qnum x =? 0 then 0%Q
  else
    let a := Qabs x in
    let e := binade a in
    let m := nearest_even (a / pow2 e) in
    Qred (inject_Z (Z.sgn (Qnum x) * m) * pow2 e).

Definition fadd (a b : double) : double := rnd (a + b).
Definition fsub (a b : double) : double := rnd (a - b).
Definition fmul (a b : double) : double := rnd (a * b).
Definition fdiv (a b : double) : double := rnd (a / b).

(** The conversion of an [int] to [double]. *)
Definition of_int (z : Z) : double := rnd (inject_Z z).

(** [FLT_EPSILON], a power of two, converted to [double] as it is. *)
Definition FLT_EPSILON : double := 1 # 8388608.

Definition ltb (a b : double) : bool := negb (Qle_bool b a).

(** [std::min] and [std::max]. *)
Definition std_min (a b : double) : double := if ltb b a then b else a.
Definition std_max (a b : double) : double := if ltb a b then b else a.

Section Primitives.

(** The two numeric kernels of the library that the program's control flow
    does not depend on are left open: the weighted sum that turns a blue,
    green, red triple into one grey level, and the 8-bit image of local
    weighted means ([boxFilter] or [GaussianBlur] with a replicated border,
    computed in floating point) that [adaptiveThreshold] compares with; the
    mean is read by the position of the pixel in [data]. *)
Variable luma : Z -> Z -> Z -> Z.
Variable localMean : AdaptiveThresholdTypes -> Z -> Mat -> nat -> Z.

(** The pixel loop of the colour to grey conversion: [n] pixels of [scn]
    channels each, one grey level written per pixel. *)
Fixpoint bgr2gray (n : nat) (scn : nat) (src : list Z) : list Z :=
  match n with
  | O => []
  | S n' =>
      luma (nth 0 src 0) (nth 1 src 0) (nth 2 src 0)
        :: bgr2gray n' scn (skipn scn src)
  end.

(** [cv::cvtColor(src, dst, code)]: the value written to [dst].  The source
    is checked before the destination is created. *)
Definition cvtColor (src : Mat) (code : ColorConversionCodes) : result Mat :=
  if empty src then Error EmptyInput
  else match code with
       | COLOR_BGR2GRAY =>
           if (channels src =? 3) || (channels src =? 4)
           then Done {| rows := rows src; cols := cols src; channels := 1;
                        data := bgr2gray (total src) (Z.to_nat (channels src))
                                  (data src) |}
           else Error BadNumberOfChannels
       end.

(** *** Thresholding *)

(** The histogram [h] of [getThreshVal_Otsu_8u]. *)
Definition histogram (d : list Z) (i : Z) : Z :=
  Z.of_nat (count_occ Z.eq_dec d i).

Definition levels : list Z := map Z.of_nat (seq 0 256).

(** The variables that live across the iterations of the second loop of
    [getThreshVal_Otsu_8u]. *)
Record otsu_state : Type := mkOtsu {
  mu1 : double;
  q1 : double;
  max_sigma : double;
  max_val : Z
}.

(** The test on which an iteration ends early: one of the two classes has
    next to no weight. *)
Definition otsu_skip (q1 q2 : double) : bool :=
  ltb (std_min q1 q2) FLT_EPSILON || ltb (fsub 1 FLT_EPSILON) (std_max q1 q2).

(** One iteration of that loop, for the level [i], operation by operation
    in the order of the source. *)
Definition otsu_step (h : Z -> Z) (scale mu : double) (st : otsu_state) (i : Z)
  : otsu_state :=
  let p_i := fmul (of_int (h i)) scale in
  let mu1' := fmul (mu1 st) (q1 st) in
  let q1' := fadd (q1 st) p_i in
  let q2 := fsub 1 q1' in
  if otsu_skip q1' q2
  then mkOtsu mu1' q1' (max_sigma st) (max_val st)
  else
    let mu1'' := fdiv (fadd mu1' (fmul (of_int i) p_i)) q1' in
    let mu2 := fdiv (fsub mu (fmul q1' mu1'')) q2 in
    let sigma :=
      fmul (fmul (fmul q1' q2) (fsub mu1'' mu2)) (fsub mu1'' mu2) in
    if ltb (max_sigma st) sigma
    then mkOtsu mu1'' q1' sigma i
    else mkOtsu mu1'' q1' (max_sigma st) (max_val st).

(** [getThreshVal_Otsu_8u]: the histogram, the mean of the image, and the
    loop over the levels.  On an image without a pixel the scale is
    infinite and every later quantity is NaN; every comparison with NaN is
    false, no level is kept, and the result is the initial 0. *)
Definition getThreshVal_Otsu_8u (src : Mat) : Z :=
  let h := histogram (data src) in
  let n := Z.of_nat (total src) in
  if n =? 0 then 0
  else
    let mu :=
      fold_left (fun mu i => fadd mu (fmul (of_int i) (of_int (h i))))
        levels 0%Q in
    let scale := fdiv 1 (of_int n) in
    let mu := fmul mu scale in
    max_val (fold_left (otsu_step h scale mu) levels (mkOtsu 0 0 0 0)).

(** The per-element rule of [cv::threshold] on 8-bit data. *)
Definition thresh_8u (type thresh maxval v : Z) : Z :=
  if type =? THRESH_BINARY then (if thresh <? v then maxval else 0)
  else if type =? THRESH_BINARY_INV then (if thresh <? v then 0 else maxval)
  else if type =? THRESH_TRUNC then (if thresh <? v then thresh else v)
  else if type =? THRESH_TOZERO then (if thresh <? v then v else 0)
  else (if thresh <? v then 0 else v).

(** [cv::threshold(src, dst, thresh, maxval, type)]: the value written to
    [dst].  With [THRESH_OTSU] the source has to be a single-channel 8-bit
    matrix and [thresh] is replaced by the computed level.  The other
    automatic mode of the library, [THRESH_TRIANGLE], is not modelled. *)
Definition threshold (src : Mat) (thresh maxval : Z) (type : Z) : result Mat :=
  let automatic_thresh := Z.land type (Z.lnot THRESH_MASK) in
  let type := Z.land type THRESH_MASK in
  let apply (t : Z) :=
    if type <=? THRESH_TOZERO_INV
    then Done {| rows := rows src; cols := cols src; channels := channels src;
                 data := map (thresh_8u type t (saturate_uchar maxval))
                           (data src) |}
    else Error BadFlag in
  if automatic_thresh =? THRESH_OTSU
  then (if channels src =? 1 then apply (getThreshVal_Otsu_8u src)
        else Error UnsupportedFormat)
  else if automatic_thresh =? 0 then apply thresh
  else Error BadFlag.

(** The lookup table [tab] of [cv::adaptiveThreshold], indexed by
    [src - mean + 255]. *)
Definition adaptive_tab (type maxValue delta i : Z) : Z :=
  if type =? THRESH_BINARY
  then (if - delta <? i - 255 then saturate_uchar maxValue else 0)
  else (if i - 255 <=? - delta then saturate_uchar maxValue else 0).

(** [cv::adaptiveThreshold(src, dst, maxValue, method, type, blockSize, C)].
    The element type and the block size are asserted first; the filter that
    computes the local means asserts that its source is not empty; the
    threshold type is looked at last, when the table is filled. *)
Definition adaptiveThreshold (src : Mat) (maxValue : Z)
    (method : AdaptiveThresholdTypes) (type : Z) (blockSize delta : Z)
  : result Mat :=
  if negb (channels src =? 1) then Error UnsupportedFormat
  else if negb ((blockSize mod 2 =? 1) && (1 <? blockSize)) then Error BadFlag
  else if empty src then Error EmptyInput
  else if negb ((type =? THRESH_BINARY) || (type =? THRESH_BINARY_INV))
  then Error BadFlag
  else
    let mean := localMean method blockSize src in
    Done {| rows := rows src; cols := cols src; channels := 1;
            data := imap (fun k v => adaptive_tab type maxValue delta
                                        (v - mean k + 255)) (data src) |}.

End Primitives.

(** *** Contours

    [cv::findContours] takes its image as an input array: from version 3.2
    of the library on it copies the image into a scratch image with a frame
    of zeros, reduces that copy to the levels 0 and 1 and follows the borders
    in it (the border following of Suzuki and Abe); the image it was given is
    only read. *)

Definition Point : Type := Z * Z.               (* [cv::Point]: x, y *)
Definition Vec4i : Type := Z * Z * Z * Z.

Inductive RetrievalModes : Type := RETR_TREE.
Inductive ContourApproximationModes : Type := CHAIN_APPROX_SIMPLE.

(** The scratch image.  A read outside it sees the frame of zeros. *)
Record Image : Type := mkImage {
  width : Z;
  height : Z;
  pixels : list Z
}.

Definition inside (img : Image) (p : Point) : bool :=
  (0 <=? p.1) && (p.1 <? width img) && (0 <=? p.2) && (p.2 <? height img).

Definition offset (img : Image) (p : Point) : nat :=
  Z.to_nat (p.2 * width img + p.1).

Definition get (img : Image) (p : Point) : Z :=
  if inside img p then nth (offset img p) (pixels img) 0 else 0.

Definition set (img : Image) (p : Point) (v : Z) : Image :=
  if inside img p
  then mkImage (width img) (height img) (<[offset img p := v]> (pixels img))
  else img.

(** The copy: non-zero pixels are treated as 1, zero pixels stay 0. *)
Definition scratch (src : Mat) : Image :=
  mkImage (cols src) (rows src)
    (map (fun v => if v =? 0 then 0 else 1) (data src)).

(** The eight chain codes ([icvCodeDeltas]): 0 is the step to the east, and
    the codes go round counterclockwise as the image is displayed. *)
Definition code_delta (s : Z) : Point :=
  match s mod 8 with
  | 0 => (1, 0)
  | 1 => (1, -1)
  | 2 => (0, -1)
  | 3 => (-1, -1)
  | 4 => (-1, 0)
  | 5 => (-1, 1)
  | 6 => (0, 1)
  | _ => (1, 1)
  end.

Definition step_to (p : Point) (s : Z) : Point :=
  (p.1 + (code_delta s).1, p.2 + (code_delta s).2).

Definition point_eqb (p q : Point) : bool := (p.1 =? q.1) && (p.2 =? q.2).

(** The search for the first neighbour of the border's origin, clockwise
    from the code [s]: the codes [s - 1], [s - 2], ... are examined. *)
Fixpoint search_cw (img : Image) (i0 : Point) (s : Z) (n : nat) : option Z :=
  match n with
  | O => None
  | S n' =>
      let s' := (s - 1) mod 8 in
      if get img (step_to i0 s') =? 0 then search_cw img i0 s' n'
      else Some s'
  end.

(** The search for the next border pixel, counterclockwise from the code
    [s]: the codes [s + 1], [s + 2], ... are examined; the code found is
    returned before it is reduced modulo 8. *)
Fixpoint search_ccw (img : Image) (i3 : Point) (s : Z) (n : nat) : Z :=
  match n with
  | O => s
  | S n' =>
      let s' := s + 1 in
      if get img (step_to i3 s') =? 0 then search_ccw img i3 s' n'
      else s'
  end.

(** The border following loop of [icvFetchContour] with the approximation
    [CHAIN_APPROX_SIMPLE]: a pixel whose east neighbour was examined and found
    zero gets the negated label, any other pixel still at 1 the label; a point
    is written where the chain code changes.  The library keeps the label in
    seven bits and the negation in the eighth.  [fuel] bounds the iterations:
    a border leaves each pixel at most once in each direction. *)
Fixpoint follow (fuel : nat) (img : Image) (nbd : Z) (i0 i1 i3 : Point)
    (s prev_s : Z) (acc : list Point) : Image * list Point :=
  match fuel with
  | O => (img, rev acc)
  | S fuel' =>
      let s_end := s in
      let s := search_ccw img i3 s 8 mod 8 in
      let i4 := step_to i3 s in
      let img :=
        if negb (s =? 0) && (s - 1 <? s_end) then set img i3 (- nbd)
        else if get img i3 =? 1 then set img i3 nbd
        else img in
      let acc := if s =? prev_s then acc else i3 :: acc in
      if point_eqb i4 i0 && point_eqb i3 i1 then (img, rev acc)
      else follow fuel' img nbd i0 i1 i4 ((s + 4) mod 8) s acc
  end.

(** [icvFetchContour]: the border that starts at [i0]. *)
Definition fetchContour (img : Image) (i0 : Point) (is_hole : bool) (nbd : Z)
  : Image * list Point :=
  let s_end := if is_hole then 0 else 4 in
  match search_cw img i0 s_end 7 with
  | None => (set img i0 (- nbd), [i0])
  | Some s =>
      follow (8 * length (pixels img)) img nbd i0 (step_to i0 s) i0 s
        (Z.lxor s 4) []
  end.

(** What the scanner keeps of a border: its label, its kind, the label of
    its parent (1 is the frame) and its points. *)
Record ContourInfo : Type := mkContourInfo {
  label : Z;
  is_hole : bool;
  parent : Z;
  contour : list Point
}.

Record Scanner : Type := mkScanner {
  img : Image;
  nbd : Z;
  lnbd : Z;
  found : list ContourInfo   (* the last border found comes first *)
}.

(** The parent of a new border, from the border [lnbd] met last on the row:
    that border if the kinds differ, its parent if they agree.  The frame
    counts as a hole border. *)
Definition parent_of (found : list ContourInfo) (lnbd : Z) (hole : bool) : Z :=
  match find (fun c => label c =? lnbd) found with
  | None => 1
  | Some c => if eqb (is_hole c) hole then parent c else label c
  end.

(** One pixel of the raster scan. *)
Definition scan_pixel (sc : Scanner) (p : Point) : Scanner :=
  let v := get (img sc) p in
  if v =? 0 then sc
  else
    let outer := (v =? 1) && (get (img sc) (p.1 - 1, p.2) =? 0) in
    let hole := negb outer && (1 <=? v) && (get (img sc) (p.1 + 1, p.2) =? 0) in
    if outer || hole then
      let lnbd' := if hole && (1 <? v) then v else lnbd sc in
      let nbd' := nbd sc + 1 in
      let '(img', pts) := fetchContour (img sc) p hole nbd' in
      mkScanner img' nbd' (Z.abs (get img' p))
        (mkContourInfo nbd' hole (parent_of (found sc) lnbd' hole) pts
           :: found sc)
    else mkScanner (img sc) (nbd sc) (if v =? 1 then lnbd sc else Z.abs v)
           (found sc).

Definition scan_row (sc : Scanner) (y : Z) : Scanner :=
  fold_left (fun sc x => scan_pixel sc (x, y))
    (map Z.of_nat (seq 0 (Z.to_nat (width (img sc)))))
    (mkScanner (img sc) (nbd sc) 1 (found sc)).

(** The raster scan: the borders of the image, the last one found first. *)
Definition scan (image : Image) : list ContourInfo :=
  found (fold_left scan_row (map Z.of_nat (seq 0 (Z.to_nat (height image))))
           (mkScanner image 1 1 [])).

(** The borders form a tree under the frame; a border is linked in as the
    first child of its parent when it is finished.  The output lists the tree
    parent first, then its children. *)
Fixpoint preorder (fuel : nat) (found : list ContourInfo) (k : Z)
  : list ContourInfo :=
  match fuel with
  | O => []
  | S fuel' =>
      flat_map (fun c => c :: preorder fuel' found (label c))
        (List.filter (fun c => parent c =? k) found)
  end.

Fixpoint index_of (order : list ContourInfo) (k : Z) (i : Z) : Z :=
  match order with
  | [] => -1
  | c :: order' => if label c =? k then i else index_of order' k (i + 1)
  end.

Fixpoint label_after (k : Z) (l : list ContourInfo) : Z :=
  match l with
  | [] => 0
  | c :: l' =>
      if label c =? k then match l' with [] => 0 | d :: _ => label d end
      else label_after k l'
  end.

(** The entry of [hierarchy] for a border: the indices of the next and the
    previous border with the same parent, of the first child and of the
    parent, -1 where there is none. *)
Definition links (order : list ContourInfo) (c : ContourInfo) : Vec4i :=
  let siblings := List.filter (fun d => parent d =? parent c) order in
  let children := List.filter (fun d => parent d =? label c) order in
  (index_of order (label_after (label c) siblings) 0,
   index_of order (label_after (label c) (rev siblings)) 0,
   index_of order (match children with [] => 0 | d :: _ => label d end) 0,
   index_of order (parent c) 0).

(** [cv::findContours(image, contours, hierarchy, mode, method)]: the values
    written to [contours] and [hierarchy]. *)
Definition findContours (image : Mat) (mode : RetrievalModes)
    (method : ContourApproximationModes)
  : result (list (list Point) * list Vec4i) :=
  if negb (channels image =? 1) then Error UnsupportedFormat
  else
    let found := scan (scratch image) in
    let order := preorder (S (length found)) found 1 in
    Done (map contour order, map (links order) order).

End cv.

(** ** The JNI layer

    A [jlong] handed over by the Java side is the address of a [cv::Mat] of
    the caller.  The store maps the addresses of the live matrices to their
    contents; address 0 is the null pointer and holds nothing. *)

Inductive status (A : Type) : Type :=
| Returned (a : A)            (* the native method returns *)
| Thrown (e : cv.Exception)   (* a [cv::Exception] leaves the native method *)
| Fault.                      (* a pointer that is not a live matrix is read *)
Arguments Returned {A} a.
Arguments Thrown {A} e.
Arguments Fault {A}.

Definition jni (A : Type) : Type :=
  gmap Z cv.Mat -> status A * gmap Z cv.Mat.

#[export] Instance jni_ret : MRet jni := fun A a h => (Returned a, h).

#[export] Instance jni_bind : MBind jni := fun A B f m h =>
  match m h with
  | (Returned a, h') => f a h'
  | (Thrown e, h') => (Thrown e, h')
  | (Fault, h') => (Fault, h')
  end.

(** Reading the matrix behind [*(cv::Mat* )matAddr]. *)
Definition load (matAddr : Z) : jni cv.Mat := fun h =>
  if matAddr =? 0 then (Fault, h)
  else match h !! matAddr with
       | Some m => (Returned m, h)
       | None => (Fault, h)
       end.

(** Writing the destination of a library call that is the caller's matrix. *)
Definition store (matAddr : Z) (m : cv.Mat) : jni unit := fun h =>
  (Returned tt, <[matAddr := m]> h).

(** The outcome of a library call: its value, or the exception it raises. *)
Definition call {A : Type} (r : cv.result A) : jni A := fun h =>
  match r with
  | cv.Done a => (Returned a, h)
  | cv.Error e => (Thrown e, h)
  end.

(** [std::to_string] on an [int]. *)
Definition to_string (n : Z) : string := NilZero.string_of_int (Z.to_int n).

Module ImageProcessor.
Section Native.

Variable luma : Z -> Z -> Z -> Z.
Variable localMean : cv.AdaptiveThresholdTypes -> Z -> cv.Mat -> nat -> Z.

(** [Java_com_titancnc_utils_ImageProcessor_nativeProcessImage]: the grey
    image is a local of the method. *)
Definition nativeProcessImage (matAddr : Z) : jni string :=
  mat ← load matAddr;
  gray ← call (cv.cvtColor luma mat cv.COLOR_BGR2GRAY);
  mret ("Image processed: " ++ to_string (cv.cols mat) ++ "x"
          ++ to_string (cv.rows mat))%string.

(** [Java_com_titancnc_utils_ImageProcessor_nativeApplyDithering]: every
    library call has the caller's matrix as source and as destination. *)
Definition nativeApplyDithering (matAddr : Z) (algorithm : Z) : jni unit :=
  mat ← load matAddr;
  (if 1 <? cv.channels mat
   then gray ← call (cv.cvtColor luma mat cv.COLOR_BGR2GRAY);
        store matAddr gray
   else mret tt);;
  match algorithm with
  | 0 =>
      mat ← load matAddr;
      dst ← call (cv.threshold mat 128 255 cv.THRESH_BINARY);
      store matAddr dst
  | 1 =>
      mat ← load matAddr;
      dst ← call (cv.adaptiveThreshold localMean mat 255
                    cv.ADAPTIVE_THRESH_GAUSSIAN_C cv.THRESH_BINARY 11 2);
      store matAddr dst
  | 2 =>
      mat ← load matAddr;
      dst ← call (cv.threshold mat 0 255
                    (Z.lor cv.THRESH_BINARY cv.THRESH_OTSU));
      store matAddr dst
  | _ => mret tt
  end.

End Native.

(** [Java_com_titancnc_utils_ImageProcessor_nativeFindContours]: [contours]
    and [hierarchy] are locals of the method; their number of contours is
    what it returns. *)
Definition nativeFindContours (matAddr : Z) : jni Z :=
  mat ← load matAddr;
  found ← call (cv.findContours mat cv.RETR_TREE cv.CHAIN_APPROX_SIMPLE);
  mret (Z.of_nat (length found.1)).

End ImageProcessor.

(** ** The vocabulary of the specification *)

(** A pixel buffer of the data model that the caller holds at [matAddr]: a
    live matrix of positive width and height with one or three channels and
    as many bytes as its header says. *)
Definition valid_buffer (h : gmap Z cv.Mat) (matAddr : Z) (m : cv.Mat) : Prop :=
  matAddr <> 0 /\ h !! matAddr = Some m /\
  0 < cv.rows m /\ 0 < cv.cols m /\
  (cv.channels m = 1 \/ cv.channels m = 3) /\
  length (cv.data m) = (cv.total m * Z.to_nat (cv.channels m))%nat.

(** A binary image: one channel, one byte per pixel, every byte at one of
    the two levels. *)
Definition binary_image (m : cv.Mat) : Prop :=
  cv.channels m = 1 /\
  length (cv.data m) = cv.total m /\
  Forall (fun v => v = 0 \/ v = 255) (cv.data m).

(** The grey reduction alone, the first step of the binarizer as the
    specification words it: a buffer of more than one channel is reduced to
    one, any other buffer is left as it is. *)
Definition grayscaleOnly (luma : Z -> Z -> Z -> Z) (matAddr : Z) : jni unit :=
  mat ← load matAddr;
  if 1 <? cv.channels mat
  then gray ← call (cv.cvtColor luma mat cv.COLOR_BGR2GRAY);
       store matAddr gray
  else mret tt.

(** The rule of the fixed threshold as the specification words it: high for
    the values from [T] on, low below. *)
Definition at_or_above (T : Z) (v : Z) : Z := if T <=? v then 255 else 0.

(** An image without a non-zero pixel: the raster scan starts no border. *)
Definition blank (image : cv.Image) : Prop :=
  Forall (fun v => v = 0) (cv.pixels image).

(** Instances of the two open kernels, to run the entry points on concrete
    images: the 14-bit fixed-point weights of the 8-bit grey conversion, and
    the local mean of an image that is flat around each pixel. *)
Definition luma_8u (b g r : Z) : Z :=
  Z.shiftr (b * 1868 + g * 9617 + r * 4899 + 8192) 14.

Definition flat_mean (_ : cv.AdaptiveThresholdTypes) (_ : Z) (m : cv.Mat)
    (k : nat) : Z :=
  nth k (cv.data m) 0.

(** Buffers to run the entry points on: two grey pixels, an image of the two
    levels 10 and 240, two colour pixels, a filled square on a background, a
    square with a hole, a background alone, one black colour pixel, and
    nothing. *)
Definition grey_pair : cv.Mat := cv.mkMat 1 2 1 [10; 240].

Definition bimodal : cv.Mat :=
  cv.mkMat 4 4 1
    [10; 10; 240; 240;
     10; 10; 240; 240;
     240; 240; 10; 10;
     240; 240; 10; 10].

Definition colour_pair : cv.Mat := cv.mkMat 1 2 3 [10; 20; 30; 200; 210; 220].

Definition square : cv.Mat :=
  cv.mkMat 5 5 1
    [0; 0; 0; 0; 0;
     0; 255; 255; 255; 0;
     0; 255; 255; 255; 0;
     0; 255; 255; 255; 0;
     0; 0; 0; 0; 0].

Definition square_with_hole : cv.Mat :=
  cv.mkMat 7 7 1
    [0; 0; 0; 0; 0; 0; 0;
     0; 255; 255; 255; 255; 255; 0;
     0; 255; 255; 255; 255; 255; 0;
     0; 255; 255; 0; 255; 255; 0;
     0; 255; 255; 255; 255; 255; 0;
     0; 255; 255; 255; 255; 255; 0;
     0; 0; 0; 0; 0; 0; 0].

Definition background : cv.Mat := cv.mkMat 2 2 1 [0; 0; 0; 0].

Definition black_pixel : cv.Mat := cv.mkMat 1 1 3 [0; 0; 0].

Definition zero_sized : cv.Mat := cv.mkMat 0 0 1 [].

(** The store of a caller that holds one matrix, at address 16. *)
Definition caller (m : cv.Mat) : gmap Z cv.Mat := {[16 := m]}.

(** A list of borders that holds one directly under the frame. *)
Definition has_top_level (found : list cv.ContourInfo) : Prop :=
  Exists (fun c => cv.parent c = 1) found.

(** A text without the character [a]. *)
Fixpoint free_of (a : Ascii.ascii) (s : string) : Prop :=
  match s with
  | EmptyString => True
  | String b s' => b <> a /\ free_of a s'
  end.

(** More buffers: the colour pair once binarized, a flat grey pair, and a
    store of two buffers. *)
Definition binarized_pair : cv.Mat := cv.mkMat 1 2 1 [0; 255].

Definition flat_pair : cv.Mat := cv.mkMat 1 2 1 [7; 7].

Definition two_buffers : gmap Z cv.Mat := <[32 := square]> (caller colour_pair).

(** ** The loop of the automatic threshold, in closed form

    The quantities that the loop of [getThreshVal_Otsu_8u] maintains, written
    from the histogram [h] and the number of pixels [n]: the pixels below a
    level, the sum of their values, the scale, the mean, the state after the
    first [i] levels, and the between-class variance that the loop computes
    at a level from the state it has reached, if it does not pass over the
    level. *)
Fixpoint prefix_sum (f : Z -> Z) (i : nat) : Z :=
  match i with
  | O => 0
  | S j => prefix_sum f j + f (Z.of_nat j)
  end.

Definition count_below (h : Z -> Z) (i : nat) : Z := prefix_sum h i.
Definition sum_below (h : Z -> Z) (i : nat) : Z :=
  prefix_sum (fun k => k * h k) i.

Definition otsu_scale (n : Z) : cv.double := cv.fdiv 1 (cv.of_int n).

Definition otsu_moment (h : Z -> Z) (i : nat) : cv.double :=
  fold_left (fun mu i => cv.fadd mu (cv.fmul (cv.of_int i) (cv.of_int (h i))))
    (map Z.of_nat (seq 0 i)) 0%Q.

Definition otsu_mean (h : Z -> Z) (n : Z) : cv.double :=
  cv.fmul (otsu_moment h 256) (otsu_scale n).

Definition otsu_loop (h : Z -> Z) (n : Z) (i : nat) : cv.otsu_state :=
  fold_left (cv.otsu_step h (otsu_scale n) (otsu_mean h n))
    (map Z.of_nat (seq 0 i)) (cv.mkOtsu 0 0 0 0).

Definition otsu_variance (h : Z -> Z) (scale mu : cv.double)
    (st : cv.otsu_state) (i : Z) : option cv.double :=
  let p_i := cv.fmul (cv.of_int (h i)) scale in
  let mu1' := cv.fmul (cv.mu1 st) (cv.q1 st) in
  let q1' := cv.fadd (cv.q1 st) p_i in
  let q2 := cv.fsub 1 q1' in
  if cv.otsu_skip q1' q2 then None
  else
    let mu1'' := cv.fdiv (cv.fadd mu1' (cv.fmul (cv.of_int i) p_i)) q1' in
    let mu2 := cv.fdiv (cv.fsub mu (cv.fmul q1' mu1'')) q2 in
    Some (cv.fmul (cv.fmul (cv.fmul q1' q2) (cv.fsub mu1'' mu2))
            (cv.fsub mu1'' mu2)).

(** The between-class variance that the library computes for the cut at the
    level [t] of the image [g]. *)
Definition computed_variance (g : cv.Mat) (t : nat) : option cv.double :=
  let h := cv.histogram (cv.data g) in
  let n := Z.of_nat (cv.total g) in
  otsu_variance h (otsu_scale n) (otsu_mean h n) (otsu_loop h n t) (Z.of_nat t).

(** Half the distance from 1 to the next [double], the greatest relative
    error of one rounding; [x] is near [A] when it is within [k] such
    errors of it; and the share of one pixel in an image of [n]. *)
Definition roundoff : Q := 1 # 9007199254740992.

Definition near (k x A : Q) : Prop :=
  (A * (1 - k * roundoff) <= x <= A * (1 + k * roundoff))%Q.

Definition pixel_share (n : Z) : Q := (1 / inject_Z n)%Q.

(** ** Properties *)

Import ImageProcessor.

Lemma load_live (h : gmap Z cv.Mat) (matAddr : Z) (m : cv.Mat) :
  matAddr <> 0 -> h !! matAddr = Some m -> load matAddr h = (Returned m, h).
Proof.
  intros Hn Hm. unfold load. destruct (Z.eqb_spec matAddr 0); [done|].
  by rewrite Hm.
Qed.

Lemma load_null (h : gmap Z cv.Mat) : load 0 h = (Fault, h).
Proof. reflexivity. Qed.

Lemma load_frame (h h' : gmap Z cv.Mat) (matAddr : Z) (r : status cv.Mat) :
  load matAddr h = (r, h') -> h' = h.
Proof.
  unfold load. destruct (matAddr =? 0); [by intros [= _ <-]|].
  destruct (h !! matAddr); by intros [= _ <-].
Qed.

Lemma bind_unfold {A B : Type} (m : jni A) (f : A -> jni B) (h : gmap Z cv.Mat) :
  (m ≫= f) h =
  match m h with
  | (Returned a, h') => f a h'
  | (Thrown e, h') => (Thrown e, h')
  | (Fault, h') => (Fault, h')
  end.
Proof. reflexivity. Qed.

(** *** The library calls of the binarizer *)

Lemma threshold_binary (src : cv.Mat) (thresh : Z) :
  cv.threshold src thresh 255 cv.THRESH_BINARY =
  cv.Done (cv.mkMat (cv.rows src) (cv.cols src) (cv.channels src)
             (map (fun v => if thresh <? v then 255 else 0) (cv.data src))).
Proof. reflexivity. Qed.

Lemma threshold_otsu (src : cv.Mat) :
  cv.channels src = 1 ->
  cv.threshold src 0 255 (Z.lor cv.THRESH_BINARY cv.THRESH_OTSU) =
  cv.Done (cv.mkMat (cv.rows src) (cv.cols src) 1
             (map (fun v => if cv.getThreshVal_Otsu_8u src <? v then 255 else 0)
                (cv.data src))).
Proof.
  intros Hc. unfold cv.threshold.
  change (Z.land (Z.lor cv.THRESH_BINARY cv.THRESH_OTSU) (Z.lnot cv.THRESH_MASK))
    with cv.THRESH_OTSU.
  change (Z.land (Z.lor cv.THRESH_BINARY cv.THRESH_OTSU) cv.THRESH_MASK)
    with cv.THRESH_BINARY.
  rewrite Hc. reflexivity.
Qed.

Lemma adaptive_gaussian
    (localMean : cv.AdaptiveThresholdTypes -> Z -> cv.Mat -> nat -> Z)
    (src : cv.Mat) :
  cv.channels src = 1 ->
  cv.adaptiveThreshold localMean src 255 cv.ADAPTIVE_THRESH_GAUSSIAN_C
    cv.THRESH_BINARY 11 2 =
  if cv.empty src then cv.Error cv.EmptyInput
  else
  cv.Done (cv.mkMat (cv.rows src) (cv.cols src) 1
             (imap (fun k v =>
                      if localMean cv.ADAPTIVE_THRESH_GAUSSIAN_C 11 src k - 2 <? v
                      then 255 else 0) (cv.data src))).
Proof.
  intros Hc. unfold cv.adaptiveThreshold. rewrite Hc. cbn [Z.eqb Pos.eqb negb].
  change (negb ((11 mod 2 =? 1) && (1 <? 11))) with false.
  destruct (cv.empty src); [reflexivity|].
  change (negb ((cv.THRESH_BINARY =? cv.THRESH_BINARY)
                || (cv.THRESH_BINARY =? cv.THRESH_BINARY_INV))) with false.
  cbv iota. do 2 f_equal. apply imap_ext. intros k v _.
  unfold cv.adaptive_tab. change (cv.THRESH_BINARY =? cv.THRESH_BINARY) with true.
  cbv iota. change (cv.saturate_uchar 255) with 255.
  destruct (Z.ltb_spec (- (2)) (v - localMean cv.ADAPTIVE_THRESH_GAUSSIAN_C 11 src k + 255 - 255));
    destruct (Z.ltb_spec (localMean cv.ADAPTIVE_THRESH_GAUSSIAN_C 11 src k - 2) v);
    (reflexivity || lia).
Qed.

(** *** The binarizer on a live buffer *)

Section Binarizer.

Variable luma : Z -> Z -> Z -> Z.
Variable localMean : cv.AdaptiveThresholdTypes -> Z -> cv.Mat -> nat -> Z.

Abbreviation dither := (nativeApplyDithering luma localMean).

(** What the switch writes to a single-channel matrix. *)
Lemma dither_single (h : gmap Z cv.Mat) (matAddr algorithm : Z) (g : cv.Mat) :
  matAddr <> 0 -> h !! matAddr = Some g -> cv.channels g = 1 ->
  dither matAddr algorithm h =
  match algorithm with
  | 0 =>
      (Returned tt,
       <[matAddr := cv.mkMat (cv.rows g) (cv.cols g) 1
           (map (fun v => if 128 <? v then 255 else 0) (cv.data g))]> h)
  | 1 =>
      if cv.empty g then (Thrown cv.EmptyInput, h)
      else
      (Returned tt,
       <[matAddr := cv.mkMat (cv.rows g) (cv.cols g) 1
           (imap (fun k v =>
                    if localMean cv.ADAPTIVE_THRESH_GAUSSIAN_C 11 g k - 2 <? v
                    then 255 else 0) (cv.data g))]> h)
  | 2 =>
      (Returned tt,
       <[matAddr := cv.mkMat (cv.rows g) (cv.cols g) 1
           (map (fun v => if cv.getThreshVal_Otsu_8u g <? v then 255 else 0)
              (cv.data g))]> h)
  | _ => (Returned tt, h)
  end.
Proof.
  intros Hn Hg Hc. unfold nativeApplyDithering.
  rewrite bind_unfold, (load_live h matAddr g Hn Hg), Hc.
  change (1 <? 1) with false. cbv iota. rewrite bind_unfold.
  unfold mret at 1, jni_ret at 1. cbv iota beta.
  destruct algorithm as [|[p|[p|p|]|]|p]; try reflexivity.
  - rewrite bind_unfold, (load_live h matAddr g Hn Hg). cbv iota beta.
    rewrite bind_unfold, threshold_binary, Hc. reflexivity.
  - rewrite bind_unfold, (load_live h matAddr g Hn Hg). cbv iota beta.
    rewrite bind_unfold, threshold_otsu by done. reflexivity.
  - rewrite bind_unfold, (load_live h matAddr g Hn Hg). cbv iota beta.
    rewrite bind_unfold, adaptive_gaussian by done.
    destruct (cv.empty g); reflexivity.
Qed.

(** A buffer of several channels that the conversion accepts: the switch
    then runs on the grey matrix. *)
Lemma dither_multi (h : gmap Z cv.Mat) (matAddr algorithm : Z) (m g : cv.Mat) :
  matAddr <> 0 -> h !! matAddr = Some m -> 1 < cv.channels m ->
  cv.cvtColor luma m cv.COLOR_BGR2GRAY = cv.Done g ->
  dither matAddr algorithm h = dither matAddr algorithm (<[matAddr := g]> h).
Proof.
  intros Hn Hm Hc Hg.
  assert (Hg1 : cv.channels g = 1).
  { unfold cv.cvtColor in Hg. destruct (cv.empty m); [done|].
    destruct (_ || _); [|done]. by injection Hg as <-. }
  unfold nativeApplyDithering at 1 2.
  rewrite !bind_unfold, (load_live h matAddr m Hn Hm).
  rewrite (load_live (<[matAddr := g]> h) matAddr g Hn)
    by apply lookup_insert_eq.
  rewrite Hg1. change (1 <? 1) with false.
  destruct (Z.ltb_spec 1 (cv.channels m)); [|lia]. cbv iota beta.
  rewrite !bind_unfold, Hg. reflexivity.
Qed.

(** A buffer of several channels that the conversion refuses: the exception
    leaves the method before anything is written. *)
Lemma dither_refused (h : gmap Z cv.Mat) (matAddr algorithm : Z) (m : cv.Mat)
    (e : cv.Exception) :
  matAddr <> 0 -> h !! matAddr = Some m -> 1 < cv.channels m ->
  cv.cvtColor luma m cv.COLOR_BGR2GRAY = cv.Error e ->
  dither matAddr algorithm h = (Thrown e, h).
Proof.
  intros Hn Hm Hc He. unfold nativeApplyDithering.
  rewrite !bind_unfold, (load_live h matAddr m Hn Hm).
  destruct (Z.ltb_spec 1 (cv.channels m)); [|lia]. cbv iota beta.
  rewrite !bind_unfold, He. reflexivity.
Qed.

Lemma bgr2gray_length (n scn : nat) (src : list Z) :
  length (cv.bgr2gray luma n scn src) = n.
Proof.
  revert src. induction n as [|n IH]; intros src; [reflexivity|].
  cbn [cv.bgr2gray length]. by rewrite IH.
Qed.

Lemma not_empty (m : cv.Mat) :
  0 < cv.rows m -> 0 < cv.cols m -> cv.empty m = false.
Proof.
  intros Hr Hc. unfold cv.empty, cv.total. apply Nat.eqb_neq. nia.
Qed.

Lemma cvtColor_three (m : cv.Mat) :
  0 < cv.rows m -> 0 < cv.cols m -> cv.channels m = 3 ->
  cv.cvtColor luma m cv.COLOR_BGR2GRAY =
  cv.Done (cv.mkMat (cv.rows m) (cv.cols m) 1
             (cv.bgr2gray luma (cv.total m) 3 (cv.data m))).
Proof.
  intros Hr Hc H3. unfold cv.cvtColor. rewrite not_empty, H3 by done.
  reflexivity.
Qed.

Lemma cvtColor_done (m g : cv.Mat) :
  cv.cvtColor luma m cv.COLOR_BGR2GRAY = cv.Done g ->
  cv.empty m = false /\ (cv.channels m = 3 \/ cv.channels m = 4) /\
  g = cv.mkMat (cv.rows m) (cv.cols m) 1
        (cv.bgr2gray luma (cv.total m) (Z.to_nat (cv.channels m)) (cv.data m)).
Proof.
  unfold cv.cvtColor. destruct (cv.empty m); [done|].
  destruct (Z.eqb_spec (cv.channels m) 3) as [H3|H3];
    [|destruct (Z.eqb_spec (cv.channels m) 4) as [H4|H4]].
  - intros [= <-]. auto.
  - intros [= <-]. auto.
  - done.
Qed.

(** What the conversion hands to the switch: one channel, and a pixel at
    least. *)
Lemma cvtColor_grey (m g : cv.Mat) :
  cv.cvtColor luma m cv.COLOR_BGR2GRAY = cv.Done g ->
  cv.channels g = 1 /\ cv.empty g = false.
Proof.
  intros Hg. destruct (cvtColor_done m g Hg) as (He & _ & ->).
  split; [reflexivity | exact He].
Qed.

Lemma two_levels_map (f : Z -> Z) (l : list Z) :
  (forall v, f v = 0 \/ f v = 255) ->
  Forall (fun v => v = 0 \/ v = 255) (map f l).
Proof. intros Hf. induction l as [|v l IH]; constructor; [apply Hf | apply IH]. Qed.

Lemma two_levels_imap (f : nat -> Z -> Z) (l : list Z) :
  (forall k v, f k v = 0 \/ f k v = 255) ->
  Forall (fun v => v = 0 \/ v = 255) (imap f l).
Proof.
  intros Hf. apply Forall_lookup. intros k x Hk.
  rewrite list_lookup_imap in Hk.
  destruct (l !! k) as [v|]; [|done]. injection Hk as <-. apply Hf.
Qed.

(** The binarizer on a single-channel matrix and a selector of the
    enumeration: a binary image of the same size. *)
Lemma dither_single_binary (h : gmap Z cv.Mat) (matAddr algorithm : Z)
    (g : cv.Mat) :
  matAddr <> 0 -> h !! matAddr = Some g -> cv.channels g = 1 ->
  length (cv.data g) = cv.total g ->
  (algorithm = 1 -> cv.empty g = false) ->
  algorithm = 0 \/ algorithm = 1 \/ algorithm = 2 ->
  exists m', dither matAddr algorithm h = (Returned tt, <[matAddr := m']> h) /\
             cv.rows m' = cv.rows g /\ cv.cols m' = cv.cols g /\
             binary_image m'.
Proof.
  intros Hn Hg Hc Hl He Ha. rewrite (dither_single h matAddr algorithm g) by done.
  destruct Ha as [-> | [-> | ->]]; rewrite ?(He eq_refl);
    eexists; (split; [reflexivity|]);
    (split; [reflexivity|]); (split; [reflexivity|]);
    (split; [reflexivity|]); cbn [cv.data]; unfold cv.total; cbn [cv.rows cv.cols].
  - split; [by rewrite length_map|]. apply two_levels_map.
    intros v. destruct (128 <? v); auto.
  - split; [by rewrite length_imap|]. apply two_levels_imap.
    intros k v. destruct (_ <? v); auto.
  - split; [by rewrite length_map|]. apply two_levels_map.
    intros v. destruct (_ <? v); auto.
Qed.

(** The switch on a single-channel matrix that holds a pixel at least: it
    returns, whatever the selector. *)
Lemma dither_single_returns (h : gmap Z cv.Mat) (matAddr algorithm : Z)
    (g : cv.Mat) :
  matAddr <> 0 -> h !! matAddr = Some g -> cv.channels g = 1 ->
  cv.empty g = false ->
  (dither matAddr algorithm h).1 = Returned tt.
Proof.
  intros Hn Hg Hc He. rewrite (dither_single h matAddr algorithm g) by done.
  rewrite He. by destruct algorithm as [|[p|[p|p|]|]|p].
Qed.

(** The binarizer on a valid buffer and a selector of the enumeration. *)
Lemma dither_valid_binary (h : gmap Z cv.Mat) (matAddr algorithm : Z)
    (m : cv.Mat) :
  valid_buffer h matAddr m ->
  algorithm = 0 \/ algorithm = 1 \/ algorithm = 2 ->
  exists m', dither matAddr algorithm h = (Returned tt, <[matAddr := m']> h) /\
             cv.rows m' = cv.rows m /\ cv.cols m' = cv.cols m /\
             binary_image m'.
Proof.
  intros (Hn & Hm & Hr & Hc & Hch & Hl) Ha. destruct Hch as [H1 | H3].
  - apply dither_single_binary; try done.
    + rewrite Hl, H1. change (Z.to_nat 1) with 1%nat. lia.
    + intros _. by apply not_empty.
  - pose proof (cvtColor_three m Hr Hc H3) as Hg.
    rewrite (dither_multi h matAddr algorithm m _ Hn Hm ltac:(lia) Hg).
    destruct (dither_single_binary (<[matAddr := cv.mkMat (cv.rows m) (cv.cols m) 1
                 (cv.bgr2gray luma (cv.total m) 3 (cv.data m))]> h)
                matAddr algorithm _ Hn (lookup_insert_eq _ _ _) eq_refl)
      as (m' & Hrun & Hr' & Hc' & Hb);
      [apply bgr2gray_length | intros _; by apply not_empty | done |].
    exists m'. rewrite Hrun, insert_insert_eq. done.
Qed.

(** C1. For every valid buffer (live, of positive area, of one or three
    channels) and each of the three algorithms, the binarizer returns and
    leaves at the caller's address a matrix of the same width and height
    that has one channel, one byte per pixel, and every byte at 0 or 255. *)
Theorem binarize_two_levels (h : gmap Z cv.Mat) (matAddr algorithm : Z)
    (m : cv.Mat) :
  valid_buffer h matAddr m ->
  algorithm = 0 \/ algorithm = 1 \/ algorithm = 2 ->
  exists m', dither matAddr algorithm h = (Returned tt, <[matAddr := m']> h) /\
             cv.rows m' = cv.rows m /\ cv.cols m' = cv.cols m /\
             binary_image m'.
Proof. apply dither_valid_binary. Qed.

(** The grey reduction alone, on a live buffer. *)
Lemma grayscaleOnly_single (h : gmap Z cv.Mat) (matAddr : Z) (g : cv.Mat) :
  matAddr <> 0 -> h !! matAddr = Some g -> cv.channels g = 1 ->
  grayscaleOnly luma matAddr h = (Returned tt, h).
Proof.
  intros Hn Hg Hc. unfold grayscaleOnly.
  rewrite bind_unfold, (load_live h matAddr g Hn Hg), Hc. reflexivity.
Qed.

Lemma grayscaleOnly_multi (h : gmap Z cv.Mat) (matAddr : Z) (m g : cv.Mat) :
  matAddr <> 0 -> h !! matAddr = Some m -> 1 < cv.channels m ->
  cv.cvtColor luma m cv.COLOR_BGR2GRAY = cv.Done g ->
  grayscaleOnly luma matAddr h = (Returned tt, <[matAddr := g]> h).
Proof.
  intros Hn Hm Hc Hg. unfold grayscaleOnly.
  rewrite bind_unfold, (load_live h matAddr m Hn Hm).
  destruct (Z.ltb_spec 1 (cv.channels m)); [|lia]. cbv iota beta.
  rewrite bind_unfold, Hg. reflexivity.
Qed.

Lemma strict_rule (v : Z) :
  exists o, Some (if 128 <? v then 255 else 0) = Some o /\
            (o = 255 <-> 128 < v) /\ (o = 0 <-> v <= 128).
Proof.
  destruct (Z.ltb_spec 128 v); eexists; (split; [reflexivity|]); lia.
Qed.

(** C2, as amended.  Under the fixed global algorithm (selector 0) every
    pixel of the grey buffer is compared with 128 strictly: the output pixel
    is 255 if and only if the input value is greater than 128, and 0 if and
    only if it is at most 128. *)
Theorem fixed_global_strict (h : gmap Z cv.Mat) (matAddr : Z) (m : cv.Mat) :
  valid_buffer h matAddr m ->
  exists g m',
    grayscaleOnly luma matAddr h = (Returned tt, <[matAddr := g]> h) /\
    dither matAddr 0 h = (Returned tt, <[matAddr := m']> h) /\
    length (cv.data m') = length (cv.data g) /\
    forall k v, cv.data g !! k = Some v ->
      exists o, cv.data m' !! k = Some o /\
                (o = 255 <-> 128 < v) /\ (o = 0 <-> v <= 128).
Proof.
  intros (Hn & Hm & Hr & Hc & Hch & Hl).
  assert (Hpix : forall l : list Z, forall k v, l !! k = Some v ->
            exists o, map (fun v => if 128 <? v then 255 else 0) l !! k = Some o /\
                      (o = 255 <-> 128 < v) /\ (o = 0 <-> v <= 128)).
  { intros l k v Hk. change (map ?f l) with (f <$> l).
    rewrite list_lookup_fmap, Hk. apply strict_rule. }
  destruct Hch as [H1 | H3].
  - exists m. eexists. rewrite (grayscaleOnly_single h matAddr m) by done.
    rewrite (dither_single h matAddr 0 m) by done.
    rewrite (insert_id h matAddr m) by done.
    split; [reflexivity|]. split; [reflexivity|]. cbn [cv.data].
    split; [apply length_map | apply Hpix].
  - pose proof (cvtColor_three m Hr Hc H3) as Hg.
    set (g := cv.mkMat _ _ _ _) in Hg. exists g. eexists.
    rewrite (grayscaleOnly_multi h matAddr m g Hn Hm ltac:(lia) Hg).
    rewrite (dither_multi h matAddr 0 m g Hn Hm ltac:(lia) Hg).
    rewrite (dither_single _ matAddr 0 g Hn (lookup_insert_eq _ _ _) eq_refl).
    rewrite insert_insert_eq.
    split; [reflexivity|]. split; [reflexivity|]. cbn [cv.data].
    split; [apply length_map | apply Hpix].
Qed.

Lemma bind_skip (x : jni unit) (h : gmap Z cv.Mat) :
  (x ≫= fun _ => mret tt) h = x h.
Proof.
  rewrite bind_unfold. destruct (x h) as [[[]| |] h']; reflexivity.
Qed.

(** A selector outside the enumeration. *)
Lemma dither_unknown_selector (h : gmap Z cv.Mat)
    (matAddr algorithm : Z) :
  algorithm <> 0 -> algorithm <> 1 -> algorithm <> 2 ->
  dither matAddr algorithm h = grayscaleOnly luma matAddr h /\
  forall g, matAddr <> 0 -> h !! matAddr = Some g -> cv.channels g = 1 ->
            dither matAddr algorithm h = (Returned tt, h).
Proof.
  intros H0 H1 H2.
  assert (Heq : dither matAddr algorithm h = grayscaleOnly luma matAddr h).
  { unfold nativeApplyDithering, grayscaleOnly. rewrite !bind_unfold.
    destruct (load matAddr h) as [[mat| |] h1]; try reflexivity.
    destruct algorithm as [|[p|[p|p|]|]|p]; try done; apply bind_skip. }
  split; [exact Heq|]. intros g Hn Hg Hc.
  rewrite Heq. by apply grayscaleOnly_single with g.
Qed.

(** C5. For every selector outside 0, 1, 2 the binarizer does what the grey
    reduction alone does, with the same outcome and the same store; a
    single-channel buffer is returned unchanged. *)
Theorem unknown_selector_grayscale_only (h : gmap Z cv.Mat)
    (matAddr algorithm : Z) :
  algorithm <> 0 -> algorithm <> 1 -> algorithm <> 2 ->
  dither matAddr algorithm h = grayscaleOnly luma matAddr h /\
  forall g, matAddr <> 0 -> h !! matAddr = Some g -> cv.channels g = 1 ->
            dither matAddr algorithm h = (Returned tt, h).
Proof. apply dither_unknown_selector. Qed.

(** C10. The binarizer with the fixed global algorithm (selector 0) is
    idempotent on a live single-channel buffer: a second call returns as the
    first did and leaves the store as the first call left it. *)
Theorem fixed_global_idempotent (h : gmap Z cv.Mat) (matAddr : Z) (g : cv.Mat) :
  matAddr <> 0 -> h !! matAddr = Some g -> cv.channels g = 1 ->
  dither matAddr 0 (dither matAddr 0 h).2 = dither matAddr 0 h.
Proof.
  intros Hn Hg Hc. rewrite (dither_single h matAddr 0 g) by done.
  cbn [snd].
  set (d := cv.mkMat _ _ _ _).
  rewrite (dither_single _ matAddr 0 d Hn (lookup_insert_eq _ _ _) eq_refl).
  rewrite insert_insert_eq. subst d. cbn [cv.rows cv.cols cv.data].
  do 3 f_equal. rewrite map_map. apply map_ext. intros v.
  destruct (Z.ltb_spec 128 v); reflexivity.
Qed.

(** A matrix that the conversion skips: the outcome of the switch is the
    outcome of its library call. *)
Lemma dither_no_conversion (h : gmap Z cv.Mat) (matAddr algorithm : Z)
    (m : cv.Mat) :
  matAddr <> 0 -> h !! matAddr = Some m -> cv.channels m <= 1 ->
  dither matAddr algorithm h =
  match algorithm with
  | 0 =>
      match cv.threshold m 128 255 cv.THRESH_BINARY with
      | cv.Done d => (Returned tt, <[matAddr := d]> h)
      | cv.Error e => (Thrown e, h)
      end
  | 1 =>
      match cv.adaptiveThreshold localMean m 255 cv.ADAPTIVE_THRESH_GAUSSIAN_C
              cv.THRESH_BINARY 11 2 with
      | cv.Done d => (Returned tt, <[matAddr := d]> h)
      | cv.Error e => (Thrown e, h)
      end
  | 2 =>
      match cv.threshold m 0 255 (Z.lor cv.THRESH_BINARY cv.THRESH_OTSU) with
      | cv.Done d => (Returned tt, <[matAddr := d]> h)
      | cv.Error e => (Thrown e, h)
      end
  | _ => (Returned tt, h)
  end.
Proof.
  intros Hn Hm Hc. unfold nativeApplyDithering.
  rewrite bind_unfold, (load_live h matAddr m Hn Hm).
  destruct (Z.ltb_spec 1 (cv.channels m)); [lia|]. cbv iota beta.
  rewrite bind_unfold. unfold mret at 1, jni_ret at 1. cbv iota beta.
  destruct algorithm as [|[p|[p|p|]|]|p]; try reflexivity.
  all: rewrite bind_unfold, (load_live h matAddr m Hn Hm); cbv iota beta.
  all: rewrite bind_unfold; unfold call.
  all: match goal with |- context [match ?c with cv.Done _ => _ | cv.Error _ => _ end] =>
         destruct c end; reflexivity.
Qed.

(** No failure of the binarizer leaves a trace in the store. *)
Lemma dither_failure_frame (h h' : gmap Z cv.Mat) (matAddr algorithm : Z)
    (st : status unit) :
  dither matAddr algorithm h = (st, h') -> st <> Returned tt -> h' = h.
Proof.
  intros Hrun Hst.
  destruct (load matAddr h) as [[m| |] h1] eqn:Hload.
  - assert (Hlive : matAddr <> 0 /\ h !! matAddr = Some m).
    { unfold load in Hload. destruct (Z.eqb_spec matAddr 0); [done|].
      destruct (h !! matAddr); [|done]. by injection Hload as ->. }
    destruct Hlive as [Hn Hm].
    destruct (Z.lt_ge_cases 1 (cv.channels m)) as [Hc | Hc].
    + destruct (cv.cvtColor luma m cv.COLOR_BGR2GRAY) as [g | e] eqn:Hg.
      * exfalso. apply Hst.
        destruct (cvtColor_grey m g Hg) as [Hg1 Hge].
        rewrite (dither_multi h matAddr algorithm m g) in Hrun by done.
        rewrite (dither_single _ matAddr algorithm g Hn
                   (lookup_insert_eq _ _ _) Hg1) in Hrun.
        rewrite Hge in Hrun.
        destruct algorithm as [|[p|[p|p|]|]|p];
          exact (f_equal fst (eq_sym Hrun)).
      * rewrite (dither_refused h matAddr algorithm m e) in Hrun by done.
        by injection Hrun as _ <-.
    + rewrite (dither_no_conversion h matAddr algorithm m) in Hrun by done.
      assert (Hcall : forall c : cv.result cv.Mat,
                match c with
                | cv.Done d => (Returned tt, <[matAddr := d]> h)
                | cv.Error e => (Thrown e, h)
                end = (st, h') -> h' = h).
      { intros [d | e] Hc'; injection Hc' as Hs Hh; [|done].
        exfalso. by apply Hst. }
      assert (Hskip : (Returned tt, h) = (st, h') -> h' = h).
      { by intros [= _ <-]. }
      destruct algorithm as [|[p|[p|p|]|]|p]; cbv iota in Hrun;
        first
          [ exact (Hcall (cv.threshold m 128 255 cv.THRESH_BINARY) Hrun)
          | exact (Hcall (cv.threshold m 0 255
                            (Z.lor cv.THRESH_BINARY cv.THRESH_OTSU)) Hrun)
          | exact (Hcall (cv.adaptiveThreshold localMean m 255
                            cv.ADAPTIVE_THRESH_GAUSSIAN_C cv.THRESH_BINARY
                            11 2) Hrun)
          | exact (Hskip Hrun) ].
  - unfold nativeApplyDithering in Hrun. rewrite bind_unfold, Hload in Hrun.
    pose proof (load_frame _ _ _ _ Hload) as ->. by injection Hrun as _ <-.
  - unfold nativeApplyDithering in Hrun. rewrite bind_unfold, Hload in Hrun.
    pose proof (load_frame _ _ _ _ Hload) as ->. by injection Hrun as _ <-.
Qed.

(** C3, as amended.  The binarizer has no check of its own and no
    [InvalidBuffer] outcome.  A null handle is read and faults; a
    zero-sized single-channel buffer is accepted as it is when the selector
    is outside 0, 1, 2; whenever the call does not return, the store is as it
    was before the call; and on every valid buffer the call returns. *)
Theorem binarize_failures (h h' : gmap Z cv.Mat) (matAddr algorithm : Z)
    (st : status unit) :
  dither matAddr algorithm h = (st, h') ->
  (matAddr = 0 -> st = Fault) /\
  (st <> Returned tt -> h' = h) /\
  (forall m, valid_buffer h matAddr m -> st = Returned tt) /\
  (forall m, matAddr <> 0 -> h !! matAddr = Some m -> cv.channels m = 1 ->
             algorithm <> 0 -> algorithm <> 1 -> algorithm <> 2 ->
             st = Returned tt /\ h' = h).
Proof.
  intros Hrun. split; [|split; [|split]].
  - intros ->. unfold nativeApplyDithering in Hrun.
    rewrite bind_unfold, load_null in Hrun. by injection Hrun as <- _.
  - exact (dither_failure_frame h h' matAddr algorithm st Hrun).
  - intros m Hv.
    destruct (Z.eq_dec algorithm 0) as [H0|H0];
      [|destruct (Z.eq_dec algorithm 1) as [H1|H1];
        [|destruct (Z.eq_dec algorithm 2) as [H2|H2]]].
    1-3: destruct (dither_valid_binary h matAddr algorithm m Hv
                     ltac:(auto)) as (m' & Hm' & _);
         rewrite Hm' in Hrun; by injection Hrun as <- _.
    destruct (dither_unknown_selector h matAddr algorithm H0 H1 H2) as [Heq _].
    rewrite Heq in Hrun. destruct Hv as (Hn & Hm & Hr & Hc & [Hch|Hch] & _).
    + rewrite (grayscaleOnly_single h matAddr m) in Hrun by done.
      by injection Hrun as <- _.
    + rewrite (grayscaleOnly_multi h matAddr m _ Hn Hm ltac:(lia)
                 (cvtColor_three m Hr Hc Hch)) in Hrun.
      by injection Hrun as <- _.
  - intros m Hn Hm Hc H0 H1 H2.
    destruct (dither_unknown_selector h matAddr algorithm H0 H1 H2) as [_ Hs].
    rewrite (Hs m) in Hrun by done. by injection Hrun as <- <-.
Qed.

End Binarizer.

(** *** The grey report *)

Section Report.

Variable luma : Z -> Z -> Z -> Z.

Lemma report_live (h : gmap Z cv.Mat) (matAddr : Z) (m : cv.Mat) :
  matAddr <> 0 -> h !! matAddr = Some m ->
  nativeProcessImage luma matAddr h =
  match cv.cvtColor luma m cv.COLOR_BGR2GRAY with
  | cv.Done _ =>
      (Returned ("Image processed: " ++ to_string (cv.cols m) ++ "x"
                   ++ to_string (cv.rows m))%string, h)
  | cv.Error e => (Thrown e, h)
  end.
Proof.
  intros Hn Hm. unfold nativeProcessImage.
  rewrite bind_unfold, (load_live h matAddr m Hn Hm). cbv iota beta.
  rewrite bind_unfold. unfold call.
  destruct (cv.cvtColor luma m cv.COLOR_BGR2GRAY); reflexivity.
Qed.

Lemma report_dead (h : gmap Z cv.Mat) (matAddr : Z) :
  matAddr = 0 \/ h !! matAddr = None ->
  nativeProcessImage luma matAddr h = (Fault, h).
Proof.
  intros Hd. unfold nativeProcessImage. rewrite bind_unfold. unfold load.
  destruct (Z.eqb_spec matAddr 0); [reflexivity|].
  destruct Hd as [? | ->]; [done | reflexivity].
Qed.

(** What the grey report does.  It never modifies the store, whatever the
    buffer and the outcome.  When it returns, it returns the text
    "Image processed: <cols>x<rows>" of the buffer's header; it returns for
    every buffer of positive area with three or four channels, and on a live
    buffer with any other channel count, a grey one included, the
    conversion, which the method calls without looking at the channel
    count, raises and nothing is returned. *)
Lemma report_leaves_buffer (h h' : gmap Z cv.Mat) (matAddr : Z)
    (st : status string) :
  nativeProcessImage luma matAddr h = (st, h') ->
  h' = h /\
  (forall s, st = Returned s ->
     exists m, h !! matAddr = Some m /\
       s = ("Image processed: " ++ to_string (cv.cols m) ++ "x"
              ++ to_string (cv.rows m))%string) /\
  (forall m, matAddr <> 0 -> h !! matAddr = Some m ->
     0 < cv.rows m -> 0 < cv.cols m ->
     cv.channels m = 3 \/ cv.channels m = 4 ->
     st = Returned ("Image processed: " ++ to_string (cv.cols m) ++ "x"
                      ++ to_string (cv.rows m))%string) /\
  (forall m, matAddr <> 0 -> h !! matAddr = Some m ->
     cv.channels m <> 3 -> cv.channels m <> 4 -> exists e, st = Thrown e).
Proof.
  intros Hrun.
  destruct (Z.eq_dec matAddr 0) as [Hz | Hn].
  { rewrite report_dead in Hrun by auto. injection Hrun as <- <-.
    repeat split; done. }
  destruct (h !! matAddr) as [m|] eqn:Hm.
  2: { rewrite report_dead in Hrun by auto. injection Hrun as <- <-.
       repeat split; done. }
  rewrite (report_live h matAddr m Hn Hm) in Hrun.
  unfold cv.cvtColor in Hrun.
  split; [|split; [|split]].
  - destruct (cv.empty m); [by injection Hrun as _ <-|].
    destruct (_ || _); by injection Hrun as _ <-.
  - intros s ->. exists m. split; [done|].
    destruct (cv.empty m); [done|]. destruct (_ || _); [|done].
    by injection Hrun as <- _.
  - intros m' _ [= <-] Hr Hc Hch. rewrite not_empty in Hrun by done.
    destruct Hch as [Hch | Hch]; rewrite Hch in Hrun; by injection Hrun as <- _.
  - intros m' _ [= <-] H3 H4.
    destruct (cv.empty m); [by injection Hrun as <- _; eauto|].
    destruct (Z.eqb_spec (cv.channels m) 3); [done|].
    destruct (Z.eqb_spec (cv.channels m) 4); [done|].
    injection Hrun as <- _. eauto.
Qed.

End Report.

(** *** The contour tracer *)

Lemma trace_live (h : gmap Z cv.Mat) (matAddr : Z) (m : cv.Mat) :
  matAddr <> 0 -> h !! matAddr = Some m ->
  nativeFindContours matAddr h =
  match cv.findContours m cv.RETR_TREE cv.CHAIN_APPROX_SIMPLE with
  | cv.Done found => (Returned (Z.of_nat (length found.1)), h)
  | cv.Error e => (Thrown e, h)
  end.
Proof.
  intros Hn Hm. unfold nativeFindContours.
  rewrite bind_unfold, (load_live h matAddr m Hn Hm). cbv iota beta.
  rewrite bind_unfold. unfold call.
  destruct (cv.findContours m cv.RETR_TREE cv.CHAIN_APPROX_SIMPLE); reflexivity.
Qed.

Lemma trace_dead (h : gmap Z cv.Mat) (matAddr : Z) :
  matAddr = 0 \/ h !! matAddr = None ->
  nativeFindContours matAddr h = (Fault, h).
Proof.
  intros Hd. unfold nativeFindContours. rewrite bind_unfold. unfold load.
  destruct (Z.eqb_spec matAddr 0); [reflexivity|].
  destruct Hd as [? | ->]; [done | reflexivity].
Qed.

(** The tracer is modelled on the library from version 3.2 on, which traces
    on a bordered copy of the matrix it is handed; the store after a call
    is then the store before it. *)
Lemma trace_frame (h : gmap Z cv.Mat) (matAddr : Z) :
  (nativeFindContours matAddr h).2 = h.
Proof.
  destruct (Z.eq_dec matAddr 0) as [Hz | Hn];
    [by rewrite trace_dead by auto|].
  destruct (h !! matAddr) as [m|] eqn:Hm; [|by rewrite trace_dead by auto].
  rewrite (trace_live h matAddr m Hn Hm).
  by destruct (cv.findContours m cv.RETR_TREE cv.CHAIN_APPROX_SIMPLE).
Qed.

Lemma blank_get (image : cv.Image) (p : cv.Point) :
  blank image -> cv.get image p = 0.
Proof.
  intros Hb. unfold cv.get. destruct (cv.inside image p); [|reflexivity].
  destruct (nth_in_or_default (cv.offset image p) (cv.pixels image) 0)
    as [Hin | ->]; [|reflexivity].
  unfold blank in Hb. rewrite List.Forall_forall in Hb. by apply Hb.
Qed.

Lemma scan_pixel_blank (sc : cv.Scanner) (p : cv.Point) :
  blank (cv.img sc) -> cv.scan_pixel sc p = sc.
Proof.
  intros Hb. unfold cv.scan_pixel. by rewrite blank_get.
Qed.

Lemma scan_pixels_blank (sc : cv.Scanner) (y : Z) (xs : list Z) :
  blank (cv.img sc) ->
  fold_left (fun sc x => cv.scan_pixel sc (x, y)) xs sc = sc.
Proof.
  intros Hb. induction xs as [|x xs IH]; [reflexivity|].
  cbn [fold_left]. by rewrite scan_pixel_blank.
Qed.

Lemma scan_row_blank (sc : cv.Scanner) (y : Z) :
  blank (cv.img sc) ->
  cv.scan_row sc y = cv.mkScanner (cv.img sc) (cv.nbd sc) 1 (cv.found sc).
Proof.
  intros Hb. unfold cv.scan_row. by rewrite scan_pixels_blank.
Qed.

Lemma scan_rows_blank (sc : cv.Scanner) (ys : list Z) :
  blank (cv.img sc) ->
  cv.found (fold_left cv.scan_row ys sc) = cv.found sc.
Proof.
  revert sc. induction ys as [|y ys IH]; intros sc Hb; [reflexivity|].
  cbn [fold_left]. rewrite scan_row_blank by done. by rewrite IH.
Qed.

Lemma scratch_blank (m : cv.Mat) :
  Forall (fun v => v = 0) (cv.data m) -> blank (cv.scratch m).
Proof.
  unfold blank, cv.scratch. cbn [cv.pixels].
  induction 1 as [|v l -> _ IH]; constructor; [reflexivity | exact IH].
Qed.

Lemma findContours_blank (m : cv.Mat) :
  cv.channels m = 1 -> Forall (fun v => v = 0) (cv.data m) ->
  cv.findContours m cv.RETR_TREE cv.CHAIN_APPROX_SIMPLE = cv.Done ([], []).
Proof.
  intros Hc Hz. unfold cv.findContours, cv.scan. rewrite Hc.
  rewrite scan_rows_blank by (by apply scratch_blank). reflexivity.
Qed.

Lemma findContours_single (m : cv.Mat) :
  cv.channels m = 1 ->
  exists found,
    cv.findContours m cv.RETR_TREE cv.CHAIN_APPROX_SIMPLE = cv.Done found /\
    length found.1 = length found.2.
Proof.
  intros Hc. unfold cv.findContours. rewrite Hc. eexists. split; [reflexivity|].
  cbn [fst snd]. by rewrite !length_map.
Qed.

Lemma findContours_refused (m : cv.Mat) :
  cv.channels m <> 1 ->
  cv.findContours m cv.RETR_TREE cv.CHAIN_APPROX_SIMPLE =
  cv.Error cv.UnsupportedFormat.
Proof.
  intros Hc. unfold cv.findContours.
  by destruct (Z.eqb_spec (cv.channels m) 1).
Qed.


(** The tracer on the two shapes of the specification's tests: a filled
    square is one contour without a child, listed by its corners; a square
    with a hole is two contours, the hole the child of the square. *)
Example findContours_square :
  cv.findContours square cv.RETR_TREE cv.CHAIN_APPROX_SIMPLE =
  cv.Done ([[(1, 1); (1, 3); (3, 3); (3, 1)]], [(-1, -1, -1, -1)]).
Proof. vm_compute. reflexivity. Qed.

Example findContours_square_with_hole :
  cv.findContours square_with_hole cv.RETR_TREE cv.CHAIN_APPROX_SIMPLE =
  cv.Done ([[(1, 1); (1, 5); (5, 5); (5, 1)];
            [(2, 3); (3, 2); (4, 3); (3, 4)]],
           [(-1, -1, 1, -1); (-1, -1, -1, 0)]).
Proof. vm_compute. reflexivity. Qed.

(** *** The automatic threshold: rounding

    What is used of a rounding below is its relative error, at most
    [roundoff], and that it keeps zero and the sign. *)

Lemma pow2_pos (e : Z) : (0 < cv.pow2 e)%Q.
Proof. apply Qpower_0_lt. reflexivity. Qed.

Lemma pow2_add (a b : Z) : (cv.pow2 (a + b) == cv.pow2 a * cv.pow2 b)%Q.
Proof. apply Qpower_plus. discriminate. Qed.

Lemma pow2_Z (n : Z) : 0 <= n -> (inject_Z (2 ^ n) == cv.pow2 n)%Q.
Proof. intros Hn. exact (Zpower_Qpower 2 n Hn). Qed.

Lemma pow2_split (k e : Z) : (cv.pow2 k == cv.pow2 (k - e) * cv.pow2 e)%Q.
Proof. rewrite <- pow2_add. replace (k - e + e) with k by lia. reflexivity. Qed.

Lemma Qnum_pos (a : Q) : (0 < a)%Q -> 0 < Qnum a.
Proof. unfold Qlt. simpl. lia. Qed.

Lemma Q_as_fraction (a : Q) :
  (a * inject_Z (Zpos (Qden a)) == inject_Z (Qnum a))%Q.
Proof. unfold Qeq, Qmult, inject_Z. simpl. lia. Qed.

(** The magnitude of a positive rational lies within a factor two of
    the power of two that the difference of the logarithms names. *)
Lemma log2_lower (a : Q) :
  (0 < a)%Q ->
  (cv.pow2 (Z.log2 (Qnum a) - Z.log2 (Zpos (Qden a)) - 1) <= a)%Q.
Proof.
  intros Ha.
  pose proof (Qnum_pos a Ha) as Hn.
  set (ln := Z.log2 (Qnum a)). set (ld := Z.log2 (Zpos (Qden a))).
  assert (Hln : 0 <= ln) by apply Z.log2_nonneg.
  assert (Hld : 0 <= ld) by apply Z.log2_nonneg.
  destruct (Z.log2_spec (Qnum a) Hn) as [Hn1 _]. fold ln in Hn1.
  destruct (Z.log2_spec (Zpos (Qden a)) eq_refl) as [_ Hd2]. fold ld in Hd2.
  assert (Hn1' : (cv.pow2 ln <= inject_Z (Qnum a))%Q).
  { rewrite <- pow2_Z by lia. rewrite <- Zle_Qle. exact Hn1. }
  assert (Hd2' : (inject_Z (Zpos (Qden a)) <= cv.pow2 (ld + 1))%Q).
  { rewrite <- pow2_Z by lia. rewrite <- Zle_Qle. unfold Z.succ in Hd2. lia. }
  pose proof (Q_as_fraction a) as Hfrac.
  assert (Hsplit : (cv.pow2 ln == cv.pow2 (ln - ld - 1) * cv.pow2 (ld + 1))%Q).
  { rewrite <- pow2_add. replace (ln - ld - 1 + (ld + 1)) with ln by lia. reflexivity. }
  pose proof (pow2_pos (ld + 1)) as Hp.
  pose proof (pow2_pos (ln - ld - 1)) as Hp'.
  (* a * d = n >= 2^ln = 2^(k-1) * 2^(ld+1) >= 2^(k-1) * d *)
  destruct (Qlt_le_dec a (cv.pow2 (ln - ld - 1))) as [Hlt|Hle]; [|exact Hle].
  exfalso.
  assert (Hd0 : (0 < inject_Z (Zpos (Qden a)))%Q) by reflexivity.
  assert ((a * inject_Z (Zpos (Qden a)) < cv.pow2 (ln - ld - 1) * cv.pow2 (ld + 1))%Q).
  { apply Qlt_le_trans with (cv.pow2 (ln - ld - 1) * inject_Z (Zpos (Qden a)))%Q.
    - apply Qmult_lt_compat_r; assumption.
    - rewrite !(Qmult_comm (cv.pow2 (ln - ld - 1))).
      apply Qmult_le_compat_r; [assumption | apply Qlt_le_weak; assumption]. }
  rewrite Hfrac, <- Hsplit in H. lra.
Qed.

Lemma nearest_even_error (y : Q) :
  (y - (1 # 2) <= inject_Z (cv.nearest_even y) <= y + (1 # 2))%Q.
Proof.
  unfold cv.nearest_even.
  pose proof (Qfloor_le y) as Hlo. pose proof (Qlt_floor y) as Hhi.
  rewrite inject_Z_plus in Hhi. change (inject_Z 1) with 1%Q in Hhi.
  destruct (Qcompare_spec (y - inject_Z (Qfloor y)) (1 # 2)) as [He|Hl|Hg].
  - destruct (Z.even (Qfloor y)); rewrite ?inject_Z_plus;
      change (inject_Z 1) with 1%Q; lra.
  - lra.
  - rewrite inject_Z_plus. change (inject_Z 1) with 1%Q. lra.
Qed.

Lemma binade_spec (a : Q) : (0 < a)%Q -> (cv.pow2 52 <= a / cv.pow2 (cv.binade a))%Q.
Proof.
  intros Ha. unfold cv.binade.
  set (k := Z.log2 (Qnum a) - Z.log2 (Zpos (Qden a))).
  pose proof (log2_lower a Ha) as Hlow. fold k in Hlow.
  destruct (Qle_bool (cv.pow2 k) a) eqn:Hk.
  - apply Qle_bool_imp_le in Hk.
    pose proof (pow2_pos (k - 52)) as Hp.
    apply Qle_shift_div_l; [exact Hp|].
    rewrite <- pow2_add. replace (52 + (k - 52)) with k by lia. exact Hk.
  - pose proof (pow2_pos (k - 53)) as Hp.
    apply Qle_shift_div_l; [exact Hp|].
    rewrite <- pow2_add. replace (52 + (k - 53)) with (k - 1) by lia. exact Hlow.
Qed.

Lemma log2_upper (a : Q) :
  (0 < a)%Q ->
  (a < cv.pow2 (Z.log2 (Qnum a) - Z.log2 (Zpos (Qden a)) + 1))%Q.
Proof.
  intros Ha.
  pose proof (Qnum_pos a Ha) as Hn.
  set (ln := Z.log2 (Qnum a)). set (ld := Z.log2 (Zpos (Qden a))).
  assert (Hln : 0 <= ln) by apply Z.log2_nonneg.
  assert (Hld : 0 <= ld) by apply Z.log2_nonneg.
  destruct (Z.log2_spec (Qnum a) Hn) as [_ Hn2]. fold ln in Hn2.
  destruct (Z.log2_spec (Zpos (Qden a)) eq_refl) as [Hd1 _]. fold ld in Hd1.
  assert (Hn2' : (inject_Z (Qnum a) < cv.pow2 (ln + 1))%Q).
  { rewrite <- pow2_Z by lia. rewrite <- Zlt_Qlt. exact Hn2. }
  assert (Hd1' : (cv.pow2 ld <= inject_Z (Zpos (Qden a)))%Q).
  { rewrite <- pow2_Z by lia. rewrite <- Zle_Qle. exact Hd1. }
  pose proof (Q_as_fraction a) as Hfrac.
  assert (Hsplit : (cv.pow2 (ln + 1) == cv.pow2 (ln - ld + 1) * cv.pow2 ld)%Q).
  { rewrite <- pow2_add. replace (ln - ld + 1 + ld) with (ln + 1) by lia.
    reflexivity. }
  pose proof (pow2_pos ld) as Hp.
  pose proof (pow2_pos (ln - ld + 1)) as Hp'.
  destruct (Qlt_le_dec a (cv.pow2 (ln - ld + 1))) as [Hlt|Hle]; [exact Hlt|].
  exfalso.
  assert (Hmul : (cv.pow2 (ln - ld + 1) * cv.pow2 ld
                  <= a * inject_Z (Zpos (Qden a)))%Q).
  { apply Qle_trans with (a * cv.pow2 ld)%Q.
    - apply Qmult_le_compat_r; [exact Hle | lra].
    - rewrite !(Qmult_comm a). apply Qmult_le_compat_r; [exact Hd1' | lra]. }
  rewrite Hfrac, <- Hsplit in Hmul. lra.
Qed.

(** The exponent that [binade] chooses leaves a significand of 53 bits. *)
Lemma binade_upper (a : Q) :
  (0 < a)%Q -> (a / cv.pow2 (cv.binade a) < cv.pow2 53)%Q.
Proof.
  intros Ha. unfold cv.binade.
  set (k := Z.log2 (Qnum a) - Z.log2 (Zpos (Qden a))).
  pose proof (log2_upper a Ha) as Hup. fold k in Hup.
  destruct (Qle_bool (cv.pow2 k) a) eqn:Hk.
  - pose proof (pow2_pos (k - 52)) as Hp.
    apply Qlt_shift_div_r; [exact Hp|].
    rewrite <- pow2_add. replace (53 + (k - 52)) with (k + 1) by lia. exact Hup.
  - assert (Hlt : (a < cv.pow2 k)%Q).
    { destruct (Qlt_le_dec a (cv.pow2 k)) as [H|H]; [exact H|].
      apply Qle_bool_iff in H. congruence. }
    pose proof (pow2_pos (k - 53)) as Hp.
    apply Qlt_shift_div_r; [exact Hp|].
    rewrite <- pow2_add. replace (53 + (k - 53)) with k by lia. exact Hlt.
Qed.

Lemma rnd_comp (x y : Q) : (x == y)%Q -> cv.rnd x = cv.rnd y.
Proof. intros H. unfold cv.rnd. rewrite (Qred_complete x y H). reflexivity. Qed.

Lemma rnd_zero (x : Q) : (x == 0)%Q -> cv.rnd x = 0%Q.
Proof. intros H. rewrite (rnd_comp x 0 H). reflexivity. Qed.

(** [rnd] is the rounding to nearest of binary64: the image of a positive
    [x] is [m * 2^e] for a significand [m] of 53 bits (or [2^53], the first
    number of the next binade) at most half a unit away from [x / 2^e]. *)
Lemma rnd_nearest (x : Q) :
  (0 < x)%Q ->
  exists m e : Z,
    (cv.rnd x == inject_Z m * cv.pow2 e)%Q /\
    2 ^ 52 <= m <= 2 ^ 53 /\
    (x / cv.pow2 e - (1 # 2) <= inject_Z m <= x / cv.pow2 e + (1 # 2))%Q.
Proof.
  intros Hx. unfold cv.rnd.
  pose proof (Qred_correct x) as Hred.
  set (x' := Qred x) in *.
  assert (Hx' : (0 < x')%Q) by (rewrite Hred; exact Hx).
  pose proof (Qnum_pos x' Hx') as Hn.
  destruct (Qnum x' =? 0) eqn:Hz; [lia|].
  assert (Habs : (Qabs x' == x')%Q) by (apply Qabs_pos; lra).
  assert (Ha : (0 < Qabs x')%Q) by (rewrite Habs; exact Hx').
  pose proof (binade_spec (Qabs x') Ha) as Hlo.
  pose proof (binade_upper (Qabs x') Ha) as Hhi.
  set (e := cv.binade (Qabs x')) in *.
  pose proof (nearest_even_error (Qabs x' / cv.pow2 e)) as Hm.
  set (m := cv.nearest_even (Qabs x' / cv.pow2 e)) in *.
  exists m, e. rewrite Qred_correct.
  replace (Z.sgn (Qnum x')) with 1 by lia. rewrite Z.mul_1_l.
  split; [reflexivity|].
  assert (H52 : (cv.pow2 52 == inject_Z (2 ^ 52))%Q) by reflexivity.
  assert (H53 : (cv.pow2 53 == inject_Z (2 ^ 53))%Q) by reflexivity.
  assert (Hy : (x / cv.pow2 e == Qabs x' / cv.pow2 e)%Q).
  { rewrite <- Hred, Habs. reflexivity. }
  split; [|rewrite Hy; exact Hm].
  rewrite H52 in Hlo. rewrite H53 in Hhi.
  assert (Hlow : (inject_Z (2 ^ 52 - 1) < inject_Z m)%Q).
  { unfold Z.sub. rewrite inject_Z_plus. change (inject_Z (- (1))) with (- 1)%Q.
    lra. }
  assert (Hupp : (inject_Z m < inject_Z (2 ^ 53 + 1))%Q).
  { rewrite inject_Z_plus. change (inject_Z 1) with 1%Q. lra. }
  rewrite <- Zlt_Qlt in Hlow, Hupp. lia.
Qed.

Lemma rnd_pos (x : Q) :
  (0 < x)%Q -> (x * (1 - roundoff) <= cv.rnd x <= x * (1 + roundoff))%Q.
Proof.
  intros Hx. unfold cv.rnd.
  pose proof (Qred_correct x) as Hred.
  set (x' := Qred x) in *.
  assert (Hx' : (0 < x')%Q) by (rewrite Hred; exact Hx).
  pose proof (Qnum_pos x' Hx') as Hn.
  destruct (Qnum x' =? 0) eqn:Hz; [lia|].
  rewrite Qred_correct.
  assert (Habs : (Qabs x' == x')%Q) by (apply Qabs_pos; lra).
  assert (Ha : (0 < Qabs x')%Q) by (rewrite Habs; exact Hx').
  pose proof (binade_spec (Qabs x') Ha) as Hb.
  set (e := cv.binade (Qabs x')) in *.
  pose proof (pow2_pos e) as Hp.
  pose proof (nearest_even_error (Qabs x' / cv.pow2 e)) as Hm.
  set (y := (Qabs x' / cv.pow2 e)%Q) in *.
  set (m := cv.nearest_even y) in *.
  replace (Z.sgn (Qnum x')) with 1 by lia.
  rewrite Z.mul_1_l.
  assert (Hy : (x == y * cv.pow2 e)%Q).
  { unfold y. rewrite <- Hred. rewrite <- Habs at 1.
    generalize (Qabs x'). intros a. field. lra. }
  assert (H52 : (cv.pow2 52 == 4503599627370496)%Q) by reflexivity.
  rewrite H52 in Hb.
  assert (Hu : (y * roundoff >= 1 # 2)%Q) by (unfold roundoff; lra).
  rewrite Hy.
  split.
  - setoid_replace (y * cv.pow2 e * (1 - roundoff))%Q
      with ((y * (1 - roundoff)) * cv.pow2 e)%Q
      using relation Qeq by ring.
    apply Qmult_le_compat_r; [lra | lra].
  - setoid_replace (y * cv.pow2 e * (1 + roundoff))%Q
      with ((y * (1 + roundoff)) * cv.pow2 e)%Q
      using relation Qeq by ring.
    apply Qmult_le_compat_r; [lra | lra].
Qed.

Lemma Qnum_neg (a : Q) : (a < 0)%Q -> Qnum a < 0.
Proof. unfold Qlt. simpl. lia. Qed.

Lemma rnd_neg (x : Q) :
  (x < 0)%Q -> (x * (1 + roundoff) <= cv.rnd x <= x * (1 - roundoff))%Q.
Proof.
  intros Hx. unfold cv.rnd.
  pose proof (Qred_correct x) as Hred.
  set (x' := Qred x) in *.
  assert (Hx' : (x' < 0)%Q) by (rewrite Hred; exact Hx).
  pose proof (Qnum_neg x' Hx') as Hn.
  destruct (Qnum x' =? 0) eqn:Hz; [lia|].
  rewrite Qred_correct.
  assert (Habs : (Qabs x' == - x')%Q) by (apply Qabs_neg; lra).
  assert (Ha : (0 < Qabs x')%Q) by (rewrite Habs; lra).
  pose proof (binade_spec (Qabs x') Ha) as Hb.
  set (e := cv.binade (Qabs x')) in *.
  pose proof (pow2_pos e) as Hp.
  pose proof (nearest_even_error (Qabs x' / cv.pow2 e)) as Hm.
  set (y := (Qabs x' / cv.pow2 e)%Q) in *.
  set (m := cv.nearest_even y) in *.
  replace (Z.sgn (Qnum x')) with (-1) by lia.
  replace (-1 * m) with (- m) by lia. rewrite inject_Z_opp.
  assert (Hy : (x == - (y * cv.pow2 e))%Q).
  { unfold y. rewrite <- Hred.
    setoid_replace x'
      with (- Qabs x')%Q
      using relation Qeq at 1 by (rewrite Habs; ring).
    generalize (Qabs x'). intros a. field. lra. }
  assert (H52 : (cv.pow2 52 == 4503599627370496)%Q) by reflexivity.
  rewrite H52 in Hb.
  assert (Hu : (y * roundoff >= 1 # 2)%Q) by (unfold roundoff; lra).
  rewrite Hy.
  split.
  - setoid_replace (- (y * cv.pow2 e) * (1 + roundoff))%Q
      with (- ((y * (1 + roundoff)) * cv.pow2 e))%Q
      using relation Qeq by ring.
    setoid_replace (- inject_Z m * cv.pow2 e)%Q
      with (- (inject_Z m * cv.pow2 e))%Q
      using relation Qeq by ring.
    apply Qopp_le_compat.
    apply Qmult_le_compat_r; [lra | lra].
  - setoid_replace (- (y * cv.pow2 e) * (1 - roundoff))%Q
      with (- ((y * (1 - roundoff)) * cv.pow2 e))%Q
      using relation Qeq by ring.
    setoid_replace (- inject_Z m * cv.pow2 e)%Q
      with (- (inject_Z m * cv.pow2 e))%Q
      using relation Qeq by ring.
    apply Qopp_le_compat.
    apply Qmult_le_compat_r; [lra | lra].
Qed.

(** *** The automatic threshold: the error of a chain of operations *)

Lemma mul_mono (a b c d : Q) :
  (0 <= a <= b)%Q -> (0 <= c <= d)%Q -> (a * c <= b * d)%Q.
Proof.
  intros [Ha Hab] [Hc Hcd].
  apply Qle_trans with (b * c)%Q.
  - apply Qmult_le_compat_r; assumption.
  - rewrite !(Qmult_comm b). apply Qmult_le_compat_r; [assumption | lra].
Qed.

Lemma scale_mono (A b c : Q) : (0 <= A)%Q -> (b <= c)%Q -> (A * b <= A * c)%Q.
Proof. intros HA Hbc. rewrite !(Qmult_comm A). apply Qmult_le_compat_r; assumption. Qed.

Lemma near_nonneg (k x A : Q) :
  (0 <= A)%Q -> (0 <= k <= 1000000)%Q -> near k x A -> (0 <= x)%Q.
Proof.
  intros HA Hk [Hlo _].
  apply Qle_trans with (A * (1 - k * roundoff))%Q; [|exact Hlo].
  apply Qmult_le_0_compat; [exact HA | unfold roundoff; lra].
Qed.

Lemma near_exact (x : Q) : near 0 x x.
Proof. unfold near. split; lra. Qed.

Lemma near_weaken (j k x A : Q) :
  (0 <= A)%Q -> (j <= k)%Q -> near j x A -> near k x A.
Proof.
  intros HA Hjk [Hlo Hhi]. split.
  - apply Qle_trans with (A * (1 - j * roundoff))%Q; [|exact Hlo].
    apply scale_mono; [exact HA | unfold roundoff; lra].
  - apply Qle_trans with (A * (1 + j * roundoff))%Q; [exact Hhi|].
    apply scale_mono; [exact HA | unfold roundoff; lra].
Qed.

Lemma near_comp (k x x' A A' : Q) :
  (x == x')%Q -> (A == A')%Q -> near k x A -> near k x' A'.
Proof. unfold near. intros Hx HA. rewrite Hx, HA. tauto. Qed.

Lemma near_rd (k x A : Q) :
  (0 <= A)%Q -> (0 <= k <= 1000000)%Q -> near k x A -> near (k + 2) (cv.rnd x) A.
Proof.
  intros HA Hk Hx.
  pose proof (near_nonneg k x A HA Hk Hx) as Hx0.
  destruct Hx as [Hlo Hhi].
  destruct (Qlt_le_dec 0 x) as [Hpos|Hle].
  - destruct (rnd_pos x Hpos) as [Rlo Rhi]. split.
    + apply Qle_trans with (x * (1 - roundoff))%Q; [|exact Rlo].
      apply Qle_trans with (A * (1 - k * roundoff) * (1 - roundoff))%Q.
      * rewrite <- Qmult_assoc. apply scale_mono; [exact HA | unfold roundoff; lra].
      * apply Qmult_le_compat_r; [exact Hlo | unfold roundoff; lra].
    + apply Qle_trans with (x * (1 + roundoff))%Q; [exact Rhi|].
      apply Qle_trans with (A * (1 + k * roundoff) * (1 + roundoff))%Q.
      * apply Qmult_le_compat_r; [exact Hhi | unfold roundoff; lra].
      * rewrite <- Qmult_assoc. apply scale_mono; [exact HA | unfold roundoff; lra].
  - assert (Hz : (x == 0)%Q) by lra.
    rewrite (rnd_zero x Hz).
    assert (HA0 : (A * (1 - k * roundoff) <= 0)%Q) by lra.
    assert (HA1 : (A == 0)%Q).
    { destruct (Qlt_le_dec 0 A) as [HAp|HAn]; [|lra].
      exfalso.
      assert (0 < A * (1 - k * roundoff))%Q.
      { apply Qmult_lt_0_compat; [exact HAp | unfold roundoff; lra]. }
      lra. }
    unfold near. rewrite HA1. split; lra.
Qed.

Lemma near_add (k x y A B : Q) :
  near k x A -> near k y B -> near k (x + y) (A + B).
Proof. unfold near. intros [H1 H2] [H3 H4]. split; lra. Qed.

Lemma near_mul (j k x y A B : Q) :
  (0 <= A)%Q -> (0 <= B)%Q -> (0 <= j <= 1000000)%Q -> (0 <= k <= 1000000)%Q ->
  near j x A -> near k y B -> near (j + k + 1) (x * y) (A * B).
Proof.
  intros HA HB Hj Hk Hx Hy.
  pose proof (near_nonneg j x A HA Hj Hx) as Hx0.
  pose proof (near_nonneg k y B HB Hk Hy) as Hy0.
  destruct Hx as [Hx1 Hx2], Hy as [Hy1 Hy2].
  assert (HAB : (0 <= A * B)%Q) by (apply Qmult_le_0_compat; assumption).
  split.
  - apply Qle_trans with ((A * (1 - j * roundoff)) * (B * (1 - k * roundoff)))%Q.
    + setoid_replace ((A * (1 - j * roundoff)) * (B * (1 - k * roundoff)))%Q
        with ((A * B) * ((1 - j * roundoff) * (1 - k * roundoff)))%Q
        using relation Qeq by ring.
      apply scale_mono; [exact HAB|].
      assert (0 <= j * roundoff * (k * roundoff))%Q.
      { apply Qmult_le_0_compat; unfold roundoff; lra. }
      unfold roundoff in *. lra.
    + apply mul_mono; split; try assumption.
      * apply Qmult_le_0_compat; [exact HA | unfold roundoff; lra].
      * apply Qmult_le_0_compat; [exact HB | unfold roundoff; lra].
  - apply Qle_trans with ((A * (1 + j * roundoff)) * (B * (1 + k * roundoff)))%Q.
    + apply mul_mono; split; assumption.
    + setoid_replace ((A * (1 + j * roundoff)) * (B * (1 + k * roundoff)))%Q
        with ((A * B) * ((1 + j * roundoff) * (1 + k * roundoff)))%Q
        using relation Qeq by ring.
      apply scale_mono; [exact HAB|].
      assert (j * roundoff * (k * roundoff) <= roundoff)%Q.
      { setoid_replace (j * roundoff * (k * roundoff))%Q
          with ((j * roundoff * k) * roundoff)%Q
          using relation Qeq by ring.
        setoid_replace roundoff
          with (1 * roundoff)%Q
          using relation Qeq at 3 by ring.
        apply Qmult_le_compat_r; [|unfold roundoff; lra].
        apply Qle_trans with (1000000 * roundoff * 1000000)%Q; [|unfold roundoff; lra].
        apply mul_mono; split; try lra.
        - apply Qmult_le_0_compat; unfold roundoff; lra.
        - unfold roundoff; lra. }
      unfold roundoff in *. lra.
Qed.

Lemma near_inv (k y B : Q) :
  (0 < B)%Q -> (0 <= k <= 1000000)%Q -> near k y B -> near (k + 1) (/ y) (/ B).
Proof.
  intros HB Hk [Hy1 Hy2].
  assert (Hy0 : (0 < y)%Q).
  { apply Qlt_le_trans with (B * (1 - k * roundoff))%Q; [|exact Hy1].
    apply Qmult_lt_0_compat; [exact HB | unfold roundoff; lra]. }
  assert (HiB : (0 < / B)%Q) by (apply Qinv_lt_0_compat; exact HB).
  assert (Hiy : (0 < / y)%Q) by (apply Qinv_lt_0_compat; exact Hy0).
  split.
  - (* /B (1 - (k+1)u) <= /y  <=  y (1 - (k+1) u) <= B *)
    apply Qle_shift_inv_l; [exact Hy0|].
    (* /B * (1 - (k+1) u) * y <= 1 *)
    apply Qle_trans with (/ B * (1 - (k + 1) * roundoff) * (B * (1 + k * roundoff)))%Q.
    + apply scale_mono; [|exact Hy2].
      apply Qmult_le_0_compat; [lra | unfold roundoff; lra].
    + setoid_replace (/ B * (1 - (k + 1) * roundoff) * (B * (1 + k * roundoff)))%Q
        with ((1 - (k + 1) * roundoff) * (1 + k * roundoff))%Q
        using relation Qeq by (field; lra).
      assert (0 <= k * roundoff * (k * roundoff))%Q.
      { apply Qmult_le_0_compat; unfold roundoff; lra. }
      assert (0 <= roundoff * (k * roundoff))%Q.
      { apply Qmult_le_0_compat; unfold roundoff; lra. }
      unfold roundoff in *. lra.
  - apply Qle_shift_inv_r; [exact Hy0|].
    apply Qle_trans with (/ B * (1 + (k + 1) * roundoff) * (B * (1 - k * roundoff)))%Q.
    + setoid_replace (/ B * (1 + (k + 1) * roundoff) * (B * (1 - k * roundoff)))%Q
        with ((1 + (k + 1) * roundoff) * (1 - k * roundoff))%Q
        using relation Qeq by (field; lra).
      assert (k * roundoff * ((k + 1) * roundoff) <= roundoff)%Q.
      { setoid_replace (k * roundoff * ((k + 1) * roundoff))%Q
          with ((k * roundoff * (k + 1)) * roundoff)%Q
          using relation Qeq by ring.
        setoid_replace roundoff
          with (1 * roundoff)%Q
          using relation Qeq at 3 by ring.
        apply Qmult_le_compat_r; [|unfold roundoff; lra].
        apply Qle_trans with (1000000 * roundoff * 1000001)%Q; [|unfold roundoff; lra].
        apply mul_mono; split; try lra.
        - apply Qmult_le_0_compat; unfold roundoff; lra.
        - unfold roundoff; lra. }
      unfold roundoff in *. lra.
    + apply scale_mono; [|exact Hy1].
      apply Qmult_le_0_compat; [lra | unfold roundoff; lra].
Qed.

Lemma near_div (j k x y A B : Q) :
  (0 <= A)%Q -> (0 < B)%Q -> (0 <= j <= 100000)%Q -> (0 <= k <= 100000)%Q ->
  near j x A -> near k y B -> near (j + k + 2) (x / y) (A / B).
Proof.
  intros HA HB Hj Hk Hx Hy.
  unfold Qdiv.
  assert (HiB : (0 <= / B)%Q) by (apply Qlt_le_weak, Qinv_lt_0_compat; exact HB).
  apply near_weaken with (j := (j + (k + 1) + 1)%Q).
  - apply Qmult_le_0_compat; assumption.
  - lra.
  - apply near_mul; try assumption; try lra.
    apply near_inv; [exact HB | lra | exact Hy].
Qed.

Lemma near_of_int (z : Z) : 0 <= z -> near 2 (cv.of_int z) (inject_Z z).
Proof.
  intros Hz. unfold cv.of_int.
  assert (H0 : (0 <= inject_Z z)%Q).
  { change 0%Q with (inject_Z 0). rewrite <- Zle_Qle. exact Hz. }
  apply near_weaken with (j := (0 + 2)%Q); [exact H0 | lra |].
  apply near_rd; [exact H0 | lra | apply near_exact].
Qed.

(** *** The automatic threshold: the loop *)

Lemma ltb_lt (a b : Q) : cv.ltb a b = true <-> (a < b)%Q.
Proof.
  unfold cv.ltb. rewrite Bool.negb_true_iff. split.
  - intros H. destruct (Qlt_le_dec a b) as [Hl|Hg]; [exact Hl|].
    apply Qle_bool_iff in Hg. congruence.
  - intros H. destruct (Qle_bool b a) eqn:E; [|reflexivity].
    apply Qle_bool_iff in E. lra.
Qed.

Lemma ltb_ge (a b : Q) : cv.ltb a b = false <-> (b <= a)%Q.
Proof.
  unfold cv.ltb. rewrite Bool.negb_false_iff. apply Qle_bool_iff.
Qed.

Lemma std_min_le (a b : Q) : (cv.std_min a b <= a)%Q /\ (cv.std_min a b <= b)%Q.
Proof.
  unfold cv.std_min. destruct (cv.ltb b a) eqn:E.
  - apply ltb_lt in E. lra.
  - apply ltb_ge in E. lra.
Qed.

Lemma std_max_ge (a b : Q) : (a <= cv.std_max a b)%Q /\ (b <= cv.std_max a b)%Q.
Proof.
  unfold cv.std_max. destruct (cv.ltb a b) eqn:E.
  - apply ltb_lt in E. lra.
  - apply ltb_ge in E. lra.
Qed.

Lemma std_min_cases (a b : Q) : cv.std_min a b = a \/ cv.std_min a b = b.
Proof. unfold cv.std_min. destruct (cv.ltb b a); auto. Qed.

Lemma std_max_cases (a b : Q) : cv.std_max a b = a \/ cv.std_max a b = b.
Proof. unfold cv.std_max. destruct (cv.ltb a b); auto. Qed.

Lemma one_minus_epsilon : cv.fsub 1 cv.FLT_EPSILON = (8388607 # 8388608)%Q.
Proof. vm_compute. reflexivity. Qed.

Lemma seq_snoc (i : nat) : seq 0 (S i) = seq 0 i ++ [i].
Proof. rewrite seq_S. reflexivity. Qed.

Lemma otsu_loop_S (h : Z -> Z) (n : Z) (i : nat) :
  otsu_loop h n (S i)
  = cv.otsu_step h (otsu_scale n) (otsu_mean h n) (otsu_loop h n i) (Z.of_nat i).
Proof.
  unfold otsu_loop. rewrite seq_snoc, map_app, fold_left_app. reflexivity.
Qed.

Lemma otsu_moment_S (h : Z -> Z) (i : nat) :
  otsu_moment h (S i)
  = cv.fadd (otsu_moment h i)
      (cv.fmul (cv.of_int (Z.of_nat i)) (cv.of_int (h (Z.of_nat i)))).
Proof.
  unfold otsu_moment. rewrite seq_snoc, map_app, fold_left_app. reflexivity.
Qed.

(** What a step of the loop does to each field. *)
Lemma otsu_step_q1 (h : Z -> Z) (scale mu : Q) (st : cv.otsu_state) (i : Z) :
  cv.q1 (cv.otsu_step h scale mu st i)
  = cv.fadd (cv.q1 st) (cv.fmul (cv.of_int (h i)) scale).
Proof.
  unfold cv.otsu_step.
  destruct (cv.otsu_skip _ _); [reflexivity|]. destruct (cv.ltb _ _); reflexivity.
Qed.

Lemma otsu_step_variance (h : Z -> Z) (scale mu : Q) (st : cv.otsu_state) (i : Z) :
  match otsu_variance h scale mu st i with
  | None =>
      cv.max_sigma (cv.otsu_step h scale mu st i) = cv.max_sigma st /\
      cv.max_val (cv.otsu_step h scale mu st i) = cv.max_val st
  | Some sigma =>
      if cv.ltb (cv.max_sigma st) sigma
      then cv.max_sigma (cv.otsu_step h scale mu st i) = sigma /\
           cv.max_val (cv.otsu_step h scale mu st i) = i
      else cv.max_sigma (cv.otsu_step h scale mu st i) = cv.max_sigma st /\
           cv.max_val (cv.otsu_step h scale mu st i) = cv.max_val st
  end.
Proof.
  unfold otsu_variance, cv.otsu_step.
  destruct (cv.otsu_skip _ _); [split; reflexivity|].
  destruct (cv.ltb _ _); split; reflexivity.
Qed.

Section Loop.

Variable h : Z -> Z.
Variable n : Z.
Hypothesis Hn : 0 < n < 8388608.
Hypothesis Hh : forall k, 0 <= h k.
Hypothesis Hall : count_below h 256 = n.

Abbreviation b := (pixel_share n).

Lemma n_pos : (0 < inject_Z n)%Q.
Proof. change 0%Q with (inject_Z 0). rewrite <- Zlt_Qlt. lia. Qed.

Lemma b_bounds : ((1 # 8388607) <= b <= 1)%Q.
Proof.
  pose proof n_pos as Hp. unfold pixel_share.
  assert (H1 : (1 <= inject_Z n)%Q).
  { change 1%Q with (inject_Z 1). rewrite <- Zle_Qle. lia. }
  assert (H2 : (inject_Z n <= 8388607)%Q).
  { change 8388607%Q with (inject_Z 8388607). rewrite <- Zle_Qle. lia. }
  split.
  - apply Qle_shift_div_l; [exact Hp | lra].
  - apply Qle_shift_div_r; [exact Hp | lra].
Qed.

Lemma b_n : (inject_Z n * b == 1)%Q.
Proof. pose proof n_pos. unfold pixel_share. field. lra. Qed.

Lemma b_pos : (0 < b)%Q.
Proof. pose proof b_bounds. lra. Qed.

Lemma scale_near : near 6 (otsu_scale n) b.
Proof.
  unfold otsu_scale, cv.fdiv, pixel_share.
  pose proof b_bounds as Hb. unfold pixel_share in Hb.
  apply near_weaken with (j := (0 + 2 + 2 + 2)%Q); [lra|lra|].
  apply near_rd; [lra|lra|].
  apply near_div; try lra.
  - exact n_pos.
  - apply near_exact.
  - apply near_of_int. lia.
Qed.

(** The share of level [i], as the loop computes it. *)
Lemma share_near (i : Z) :
  near 11 (cv.fmul (cv.of_int (h i)) (otsu_scale n)) (inject_Z (h i) * b).
Proof.
  pose proof b_pos as Hb.
  assert (Hi : (0 <= inject_Z (h i))%Q).
  { change 0%Q with (inject_Z 0). rewrite <- Zle_Qle. apply Hh. }
  assert (Hib : (0 <= inject_Z (h i) * b)%Q).
  { apply Qmult_le_0_compat; lra. }
  unfold cv.fmul.
  apply near_weaken with (j := (2 + 6 + 1 + 2)%Q); [exact Hib|lra|].
  apply near_rd; [exact Hib|lra|].
  apply near_mul; try lra.
  - apply near_of_int. apply Hh.
  - exact scale_near.
Qed.

Lemma share_zero (i : Z) :
  h i = 0 -> cv.fmul (cv.of_int (h i)) (otsu_scale n) = 0%Q.
Proof.
  intros Hi. rewrite Hi. unfold cv.fmul, cv.of_int.
  rewrite (rnd_zero (inject_Z 0)) by reflexivity.
  apply rnd_zero. ring.
Qed.

Lemma count_below_nonneg (i : nat) : 0 <= count_below h i.
Proof.
  unfold count_below. induction i as [|i IH]; simpl; [lia|].
  pose proof (Hh (Z.of_nat i)). lia.
Qed.

Lemma count_below_mono (i j : nat) :
  (i <= j)%nat -> count_below h i <= count_below h j.
Proof.
  unfold count_below. induction 1 as [|j Hj IH]; [lia|].
  simpl. pose proof (Hh (Z.of_nat j)). lia.
Qed.

Lemma otsu_loop_q1 (i : nat) :
  cv.q1 (otsu_loop h n (S i))
  = cv.fadd (cv.q1 (otsu_loop h n i))
      (cv.fmul (cv.of_int (h (Z.of_nat i))) (otsu_scale n)).
Proof. rewrite otsu_loop_S. apply otsu_step_q1. Qed.

(** The weight of the lower class, as the loop accumulates it. *)
Lemma weight_near (i : nat) :
  (i <= 256)%nat ->
  near (inject_Z (Z.of_nat (11 + 2 * i)))
       (cv.q1 (otsu_loop h n i)) (inject_Z (count_below h i) * b).
Proof.
  pose proof b_pos as Hb.
  induction i as [|i IH]; intros Hi.
  - unfold otsu_loop, count_below, near. simpl fold_left. simpl prefix_sum.
    simpl cv.q1. change (inject_Z 0) with 0%Q. split; lra.
  - rewrite otsu_loop_q1. unfold cv.fadd.
    assert (Hc : (0 <= inject_Z (count_below h i))%Q).
    { change 0%Q with (inject_Z 0). rewrite <- Zle_Qle. apply count_below_nonneg. }
    assert (Hs : (0 <= inject_Z (h (Z.of_nat i)))%Q).
    { change 0%Q with (inject_Z 0). rewrite <- Zle_Qle. apply Hh. }
    assert (Hcb : (0 <= inject_Z (count_below h i) * b)%Q)
      by (apply Qmult_le_0_compat; lra).
    assert (Hsb : (0 <= inject_Z (h (Z.of_nat i)) * b)%Q)
      by (apply Qmult_le_0_compat; lra).
    assert (Hk : (inject_Z (Z.of_nat (11 + 2 * S i))
                  == inject_Z (Z.of_nat (11 + 2 * i)) + 2)%Q).
    { rewrite <- (inject_Z_plus _ 2). apply inject_Z_injective. lia. }
    assert (Hk0 : (11 <= inject_Z (Z.of_nat (11 + 2 * i)) <= 1000)%Q).
    { split.
      - change 11%Q with (inject_Z 11). rewrite <- Zle_Qle. lia.
      - change 1000%Q with (inject_Z 1000). rewrite <- Zle_Qle. lia. }
    assert (Hsum : (inject_Z (count_below h (S i)) * b
                    == inject_Z (count_below h i) * b
                       + inject_Z (h (Z.of_nat i)) * b)%Q).
    { unfold count_below. simpl. rewrite inject_Z_plus. ring. }
    apply near_comp with (x := cv.rnd (cv.q1 (otsu_loop h n i)
                                + cv.fmul (cv.of_int (h (Z.of_nat i))) (otsu_scale n)))
                         (A := (inject_Z (count_below h i) * b
                                + inject_Z (h (Z.of_nat i)) * b)%Q);
      [reflexivity | symmetry; exact Hsum |].
    apply near_weaken with (j := (inject_Z (Z.of_nat (11 + 2 * i)) + 2)%Q);
      [lra | lra |].
    apply near_rd; [lra | lra |].
    apply near_add.
    + apply IH. lia.
    + apply near_weaken with (j := 11%Q); [exact Hsb | lra | apply share_near].
Qed.

Lemma sum_below_le (i : nat) :
  (i <= 256)%nat -> 0 <= sum_below h i <= 255 * count_below h i.
Proof.
  unfold sum_below, count_below.
  induction i as [|i IH]; intros Hi; cbn [prefix_sum]; [lia|].
  specialize (IH ltac:(lia)).
  pose proof (Hh (Z.of_nat i)). nia.
Qed.

(** The first moment of the histogram, as the loop before the main one
    accumulates it. *)
Lemma moment_near (i : nat) :
  (i <= 256)%nat ->
  near (inject_Z (Z.of_nat (7 + 2 * i)))
       (otsu_moment h i) (inject_Z (sum_below h i)).
Proof.
  induction i as [|i IH]; intros Hi.
  - unfold otsu_moment, sum_below, near. simpl fold_left. simpl prefix_sum.
    change (inject_Z 0) with 0%Q. split; lra.
  - rewrite otsu_moment_S. unfold cv.fadd.
    assert (Hc : (0 <= inject_Z (sum_below h i))%Q).
    { change 0%Q with (inject_Z 0). rewrite <- Zle_Qle.
      apply sum_below_le. lia. }
    assert (Hi0 : (0 <= inject_Z (Z.of_nat i))%Q).
    { change 0%Q with (inject_Z 0). rewrite <- Zle_Qle. lia. }
    assert (Hs : (0 <= inject_Z (h (Z.of_nat i)))%Q).
    { change 0%Q with (inject_Z 0). rewrite <- Zle_Qle. apply Hh. }
    assert (Hprod : (0 <= inject_Z (Z.of_nat i) * inject_Z (h (Z.of_nat i)))%Q)
      by (apply Qmult_le_0_compat; lra).
    assert (Hk0 : (7 <= inject_Z (Z.of_nat (7 + 2 * i)) <= 1000)%Q).
    { split.
      - change 7%Q with (inject_Z 7). rewrite <- Zle_Qle. lia.
      - change 1000%Q with (inject_Z 1000). rewrite <- Zle_Qle. lia. }
    assert (Hk : (inject_Z (Z.of_nat (7 + 2 * S i))
                  == inject_Z (Z.of_nat (7 + 2 * i)) + 2)%Q).
    { rewrite <- (inject_Z_plus _ 2). apply inject_Z_injective. lia. }
    assert (Hsum : (inject_Z (sum_below h (S i))
                    == inject_Z (sum_below h i)
                       + inject_Z (Z.of_nat i) * inject_Z (h (Z.of_nat i)))%Q).
    { unfold sum_below. simpl. rewrite inject_Z_plus, inject_Z_mult. reflexivity. }
    apply near_comp with
      (x := cv.rnd (otsu_moment h i
                + cv.fmul (cv.of_int (Z.of_nat i)) (cv.of_int (h (Z.of_nat i)))))
      (A := (inject_Z (sum_below h i)
             + inject_Z (Z.of_nat i) * inject_Z (h (Z.of_nat i)))%Q);
      [reflexivity | symmetry; exact Hsum |].
    apply near_weaken with (j := (inject_Z (Z.of_nat (7 + 2 * i)) + 2)%Q);
      [lra | lra |].
    apply near_rd; [lra | lra |].
    apply near_add.
    + apply IH. lia.
    + apply near_weaken with (j := (2 + 2 + 1 + 2)%Q); [exact Hprod | lra |].
      unfold cv.fmul. apply near_rd; [exact Hprod | lra |].
      apply near_mul; try lra.
      * apply near_of_int. lia.
      * apply near_of_int. apply Hh.
Qed.

Lemma mean_near :
  near 528 (otsu_mean h n) (inject_Z (sum_below h 256) * b).
Proof.
  pose proof b_pos as Hb.
  assert (Hc : (0 <= inject_Z (sum_below h 256))%Q).
  { change 0%Q with (inject_Z 0). rewrite <- Zle_Qle.
    apply sum_below_le. lia. }
  assert (Hcb : (0 <= inject_Z (sum_below h 256) * b)%Q)
    by (apply Qmult_le_0_compat; lra).
  unfold otsu_mean, cv.fmul.
  apply near_weaken with (j := (519 + 6 + 1 + 2)%Q); [exact Hcb | lra |].
  apply near_rd; [exact Hcb | lra |].
  apply near_mul; try lra.
  - exact (moment_near 256 (le_n _)).
  - exact scale_near.
Qed.

Lemma rnd_sign_pos (x : Q) : (0 < x)%Q -> (0 < cv.rnd x)%Q.
Proof.
  intros Hx. destruct (rnd_pos x Hx) as [Hlo _].
  apply Qlt_le_trans with (x * (1 - roundoff))%Q; [|exact Hlo].
  apply Qmult_lt_0_compat; [exact Hx | unfold roundoff; lra].
Qed.

Lemma rnd_sign_neg (x : Q) : (x < 0)%Q -> (cv.rnd x < 0)%Q.
Proof.
  intros Hx. destruct (rnd_neg x Hx) as [_ Hhi].
  apply Qle_lt_trans with (x * (1 - roundoff))%Q; [exact Hhi|].
  assert (0 < (- x) * (1 - roundoff))%Q.
  { apply Qmult_lt_0_compat; [lra | unfold roundoff; lra]. }
  lra.
Qed.

Section Extremes.

Variables lo hi : nat.
Hypothesis Hlohi : (lo <= hi < 256)%nat.
Hypothesis Hbelow : forall k, (k < lo)%nat -> h (Z.of_nat k) = 0.
Hypothesis Habove : forall k, (hi < k)%nat -> h (Z.of_nat k) = 0.
Hypothesis Hlo : 0 < h (Z.of_nat lo).
Hypothesis Hhi : 0 < h (Z.of_nat hi).

Lemma skip_zero (q2 : Q) : cv.otsu_skip 0 q2 = true.
Proof.
  unfold cv.otsu_skip. apply Bool.orb_true_iff. left. apply ltb_lt.
  destruct (std_min_le 0 q2) as [H _].
  apply Qle_lt_trans with 0%Q; [exact H | reflexivity].
Qed.

(** Below the darkest level nothing has been counted yet: the loop
    passes over these levels with its state untouched. *)
Lemma loop_before (i : nat) :
  (i <= lo)%nat -> otsu_loop h n i = cv.mkOtsu 0 0 0 0.
Proof.
  induction i as [|i IH]; intros Hi; [reflexivity|].
  rewrite otsu_loop_S, IH by lia.
  unfold cv.otsu_step. cbn [cv.mu1 cv.q1 cv.max_sigma cv.max_val].
  rewrite share_zero by (apply Hbelow; lia).
  change (cv.fadd 0 0) with (cv.rnd (0 + 0)).
  rewrite (rnd_zero (0 + 0)) by reflexivity.
  rewrite skip_zero.
  change (cv.fmul 0 0) with (cv.rnd (0 * 0)).
  rewrite (rnd_zero (0 * 0)) by reflexivity.
  reflexivity.
Qed.

Lemma count_above (i : nat) :
  (hi < i)%nat -> count_below h i = count_below h (S hi).
Proof.
  unfold count_below. intros Hi.
  induction Hi as [|i Hi IH]; [reflexivity|].
  simpl prefix_sum at 1. rewrite IH. rewrite (Habove i) by lia. lia.
Qed.

Lemma count_full (i : nat) : (hi < i <= 256)%nat -> count_below h i = n.
Proof.
  intros Hi. rewrite count_above by lia.
  rewrite <- Hall. symmetry. destruct (Nat.eq_dec (S hi) 256%nat) as [E|E].
  - rewrite E. reflexivity.
  - apply count_above. lia.
Qed.

(** From the brightest level on the lower class holds every pixel: the
    loop passes over these levels too. *)
Lemma skip_above (i : nat) :
  (hi <= i < 256)%nat ->
  cv.otsu_skip (cv.q1 (otsu_loop h n (S i)))
    (cv.fsub 1 (cv.q1 (otsu_loop h n (S i)))) = true.
Proof.
  intros Hi.
  pose proof (weight_near (S i) ltac:(lia)) as [Hw _].
  rewrite count_full in Hw by lia. rewrite b_n in Hw.
  assert (Hk : (inject_Z (Z.of_nat (11 + 2 * S i)) <= 1000)%Q).
  { change 1000%Q with (inject_Z 1000). rewrite <- Zle_Qle. lia. }
  unfold cv.otsu_skip. apply Bool.orb_true_iff. right.
  rewrite one_minus_epsilon. apply ltb_lt.
  destruct (std_max_ge (cv.q1 (otsu_loop h n (S i)))
              (cv.fsub 1 (cv.q1 (otsu_loop h n (S i))))) as [Hm _].
  unfold roundoff in Hw. lra.
Qed.

Lemma step_skipped (st : cv.otsu_state) (i : Z) (scale mu : Q) :
  cv.otsu_skip (cv.q1 (cv.otsu_step h scale mu st i))
            (cv.fsub 1 (cv.q1 (cv.otsu_step h scale mu st i))) = true ->
  cv.max_val (cv.otsu_step h scale mu st i) = cv.max_val st /\
  cv.max_sigma (cv.otsu_step h scale mu st i) = cv.max_sigma st.
Proof.
  rewrite otsu_step_q1. unfold cv.otsu_step. intros Hs. rewrite Hs.
  split; reflexivity.
Qed.

Lemma loop_above (i : nat) :
  (hi <= i <= 256)%nat ->
  cv.max_val (otsu_loop h n i) = cv.max_val (otsu_loop h n hi).
Proof.
  intros [Hi1 Hi2]. induction Hi1 as [|i Hi1 IH]; [reflexivity|].
  rewrite <- IH by lia.
  pose proof (skip_above i ltac:(lia)) as Hs.
  rewrite otsu_loop_S in Hs |- *.
  apply (step_skipped _ _ _ _ Hs).
Qed.


Lemma below_zero (i : nat) :
  (i <= lo)%nat -> count_below h i = 0 /\ sum_below h i = 0.
Proof.
  unfold count_below, sum_below.
  induction i as [|i IH]; intros Hi; cbn [prefix_sum]; [split; reflexivity|].
  destruct (IH ltac:(lia)) as [-> ->]. rewrite (Hbelow i) by lia. lia.
Qed.

Lemma sum_above_lo (i : nat) :
  (lo < i <= 256)%nat ->
  Z.of_nat lo * h (Z.of_nat lo)
  + (Z.of_nat lo + 1) * (count_below h i - h (Z.of_nat lo))
  <= sum_below h i.
Proof.
  intros [Hi1 Hi2]. induction Hi1 as [|i Hi1 IH].
  - destruct (below_zero lo (le_n _)) as [Hc Hs].
    unfold count_below, sum_below in *. cbn [prefix_sum]. rewrite Hc, Hs. lia.
  - specialize (IH ltac:(lia)).
    unfold count_below, sum_below in *. cbn [prefix_sum].
    pose proof (Hh (Z.of_nat i)). nia.
Qed.

Lemma two_levels_count : (lo < hi)%nat -> h (Z.of_nat lo) + h (Z.of_nat hi) <= n.
Proof.
  intros Hlt. rewrite <- (count_full (S hi)) by lia.
  pose proof (count_below_mono (S lo) hi ltac:(lia)) as Hm.
  destruct (below_zero lo (le_n _)) as [Hc _].
  unfold count_below in *. cbn [prefix_sum] in *. lia.
Qed.

(** At the darkest level of an image with two levels or more the loop
    does not pass: it finds a positive variance and keeps this level. *)
Lemma step_at_lo :
  (lo < hi)%nat ->
  cv.max_val (otsu_loop h n (S lo)) = Z.of_nat lo /\
  (0 < cv.max_sigma (otsu_loop h n (S lo)))%Q.
Proof.
  intros Hlt.
  pose proof b_bounds as Hb. pose proof b_n as Hbn.
  pose proof two_levels_count Hlt as Hcount.
  pose proof (sum_above_lo 256 ltac:(lia)) as Hsum.
  pose proof (sum_below_le 256 (le_n _)) as [Hs0 Hs255].
  rewrite Hall in Hsum, Hs255.
  pose proof mean_near as Hmean.
  pose proof (share_near (Z.of_nat lo)) as Hp.
  rewrite otsu_loop_S, loop_before by lia.
  unfold cv.otsu_step. cbn [cv.mu1 cv.q1 cv.max_sigma cv.max_val].
  set (mu := otsu_mean h n) in *.
  set (p := cv.fmul (cv.of_int (h (Z.of_nat lo))) (otsu_scale n)) in *.
  set (H := inject_Z (h (Z.of_nat lo))) in *.
  set (L := inject_Z (Z.of_nat lo)).
  set (S := inject_Z (sum_below h 256)) in *.
  set (a := (H * b)%Q) in *.
  (* the exact quantities *)
  assert (HH : (1 <= H <= inject_Z n - 1)%Q).
  { unfold H. split.
    - change 1%Q with (inject_Z 1). rewrite <- Zle_Qle. lia.
    - assert (inject_Z (h (Z.of_nat lo)) + 1 <= inject_Z n)%Q; [|lra].
      change 1%Q with (inject_Z 1). rewrite <- inject_Z_plus, <- Zle_Qle. lia. }
  assert (Ha : (b <= a <= 1 - b)%Q).
  { unfold a. split.
    - setoid_replace b with (1 * b)%Q using relation Qeq at 1 by ring.
      apply Qmult_le_compat_r; lra.
    - assert (E : ((inject_Z n - 1) * b == 1 - b)%Q).
      { setoid_replace ((inject_Z n - 1) * b)%Q
          with (inject_Z n * b - b)%Q
          using relation Qeq by ring.
        rewrite Hbn. reflexivity. }
      rewrite <- E. apply Qmult_le_compat_r; lra. }
  assert (HL : (0 <= L <= 254)%Q).
  { unfold L. split.
    - change 0%Q with (inject_Z 0). rewrite <- Zle_Qle. lia.
    - change 254%Q with (inject_Z 254). rewrite <- Zle_Qle. lia. }
  set (v := (L * a)%Q).
  assert (Hv : (0 <= v <= L)%Q).
  { unfold v. split.
    - apply Qmult_le_0_compat; lra.
    - setoid_replace L with (L * 1)%Q using relation Qeq at 2 by ring.
      apply scale_mono; lra. }
  assert (HS : (L + 1 - a <= S * b <= 255)%Q).
  { split.
    - assert (HZ : ((L * H + (L + 1) * inject_Z n) * b
                    <= (S + (L + 1) * H) * b)%Q).
      { apply Qmult_le_compat_r; [|lra].
        unfold L, H, S. change 1%Q with (inject_Z 1).
        rewrite <- !inject_Z_plus, <- !inject_Z_mult, <- !inject_Z_plus,
          <- Zle_Qle.
        lia. }
      setoid_replace ((L * H + (L + 1) * inject_Z n) * b)%Q
        with (v + (L + 1) * (inject_Z n * b))%Q
        using relation Qeq in HZ by (unfold v, a; ring).
      setoid_replace ((S + (L + 1) * H) * b)%Q
        with (S * b + v + a)%Q using relation Qeq in HZ by (unfold v, a; ring).
      rewrite Hbn in HZ. lra.
    - assert (E : ((255 * inject_Z n) * b == 255)%Q).
      { setoid_replace ((255 * inject_Z n) * b)%Q
          with (255 * (inject_Z n * b))%Q
          using relation Qeq by ring.
        rewrite Hbn. reflexivity. }
      rewrite <- E. apply Qmult_le_compat_r; [|lra].
      unfold S. change 255%Q with (inject_Z 255).
      rewrite <- inject_Z_mult, <- Zle_Qle. exact Hs255. }
  (* the state at the darkest level *)
  change (cv.fmul 0 0) with (cv.rnd (0 * 0)).
  rewrite (rnd_zero (0 * 0)) by reflexivity.
  assert (Ea : (0 <= a)%Q) by lra.
  assert (Eq1 : cv.fadd 0 p = cv.rnd p) by (apply rnd_comp; ring).
  rewrite Eq1.
  assert (Hq1 : near 13 (cv.rnd p) a).
  { apply near_weaken with (j := (11 + 2)%Q); [exact Ea | lra |].
    apply near_rd; [exact Ea | lra | exact Hp]. }
  set (q1' := cv.rnd p) in *.
  destruct Hq1 as [Hq1a Hq1b]. unfold roundoff in Hq1a, Hq1b.
  assert (Hq1' : (a - (1 # 100000000000000) <= q1'
                  <= a + (1 # 100000000000000))%Q) by lra.
  set (q2 := cv.fsub 1 q1').
  assert (Hq2 : ((1 - q1') * (1 - roundoff) <= q2 <= (1 - q1') * (1 + roundoff))%Q).
  { apply rnd_pos. lra. }
  unfold roundoff in Hq2.
  assert (Hskip : cv.otsu_skip q1' q2 = false).
  { unfold cv.otsu_skip. apply Bool.orb_false_iff. split.
    - apply ltb_ge. unfold cv.FLT_EPSILON.
      destruct (std_min_cases q1' q2) as [-> | ->]; lra.
    - rewrite one_minus_epsilon. apply ltb_ge.
      destruct (std_max_cases q1' q2) as [-> | ->]; lra. }
  rewrite Hskip.
  (* the two class means *)
  assert (Ev : (0 <= v)%Q) by lra.
  assert (Ht1 : near 16 (cv.fmul (cv.of_int (Z.of_nat lo)) p) v).
  { unfold cv.fmul. apply near_weaken with (j := (2 + 11 + 1 + 2)%Q); [exact Ev | lra |].
    apply near_rd; [exact Ev | lra |].
    apply near_mul; try lra.
    - apply near_of_int. lia.
    - exact Hp. }
  set (t1 := cv.fmul (cv.of_int (Z.of_nat lo)) p) in *.
  assert (Et2 : cv.fadd 0 t1 = cv.rnd t1) by (apply rnd_comp; ring).
  rewrite Et2.
  assert (Ht2 : near 18 (cv.rnd t1) v).
  { apply near_weaken with (j := (16 + 2)%Q); [exact Ev | lra |].
    apply near_rd; [exact Ev | lra | exact Ht1]. }
  assert (Hm1 : near 35 (cv.fdiv (cv.rnd t1) q1') L).
  { unfold cv.fdiv.
    apply near_comp with (x := cv.rnd (cv.rnd t1 / q1')) (A := (v / a)%Q);
      [reflexivity | unfold v; field; lra |].
    assert (Eva : (0 <= v / a)%Q).
    { apply Qle_shift_div_l; lra. }
    apply near_weaken with (j := (18 + 13 + 2 + 2)%Q); [exact Eva | lra |].
    apply near_rd; [exact Eva | lra |].
    apply near_div; try lra.
    - exact Ht2.
    - unfold near, roundoff. lra. }
  set (m1 := cv.fdiv (cv.rnd t1) q1') in *.
  assert (Ht3 : near 51 (cv.fmul q1' m1) v).
  { unfold cv.fmul.
    apply near_comp with (x := cv.rnd (q1' * m1)) (A := (a * L)%Q);
      [reflexivity | unfold v; ring |].
    assert (Eal : (0 <= a * L)%Q) by (apply Qmult_le_0_compat; lra).
    apply near_weaken with (j := (13 + 35 + 1 + 2)%Q); [exact Eal | lra |].
    apply near_rd; [exact Eal | lra |].
    apply near_mul; try lra.
    - unfold near, roundoff. lra.
    - exact Hm1. }
  set (t3 := cv.fmul q1' m1) in *.
  destruct Hmean as [Hmu _]. destruct Ht3 as [_ Ht3]. destruct Hm1 as [_ Hm1].
  unfold roundoff in Hmu, Ht3, Hm1.
  assert (Hd : ((1 # 2) * b <= mu - t3)%Q) by lra.
  assert (Ht4 : ((mu - t3) * (1 - roundoff) <= cv.fsub mu t3)%Q).
  { apply rnd_pos. lra. }
  set (t4 := cv.fsub mu t3) in *. unfold roundoff in Ht4.
  assert (Hq2pos : (0 < q2)%Q) by lra.
  assert (HLq : (L * (1 - q1') <= L * (1 - a + (1 # 100000000000000)))%Q).
  { apply scale_mono; lra. }
  assert (Hratio : (L + (3 # 4) <= t4 / q2)%Q).
  { apply Qle_shift_div_l; [exact Hq2pos|].
    apply Qle_trans with ((L + (3 # 4)) * ((1 - q1') * (1 + (1 # 9007199254740992))))%Q.
    - apply scale_mono; lra.
    - fold v in HLq.
      setoid_replace (L * (1 - a + (1 # 100000000000000)))%Q
        with (L - v + L * (1 # 100000000000000))%Q
        using relation Qeq in HLq by (unfold v; ring).
      lra. }
  assert (Hm2 : (L + (1 # 2) <= cv.fdiv t4 q2)%Q).
  { assert (Hpos : (0 < t4 / q2)%Q) by lra.
    destruct (rnd_pos _ Hpos) as [Hlow _]. unfold cv.fdiv, roundoff in *. lra. }
  set (m2 := cv.fdiv t4 q2) in *.
  (* the variance *)
  assert (HD : (cv.fsub m1 m2 < 0)%Q).
  { apply rnd_sign_neg. lra. }
  set (D := cv.fsub m1 m2) in *.
  assert (Hq1pos : (0 < q1')%Q) by lra.
  assert (HA : (0 < cv.fmul q1' q2)%Q).
  { apply rnd_sign_pos. apply Qmult_lt_0_compat; assumption. }
  assert (HB : (cv.fmul (cv.fmul q1' q2) D < 0)%Q).
  { apply rnd_sign_neg.
    assert (0 < cv.fmul q1' q2 * (- D))%Q by (apply Qmult_lt_0_compat; lra).
    lra. }
  assert (Hsigma : (0 < cv.fmul (cv.fmul (cv.fmul q1' q2) D) D)%Q).
  { apply rnd_sign_pos.
    assert (0 < (- cv.fmul (cv.fmul q1' q2) D) * (- D))%Q
      by (apply Qmult_lt_0_compat; lra).
    lra. }
  apply ltb_lt in Hsigma as Hlt0. rewrite Hlt0.
  cbn [cv.max_val cv.max_sigma]. split; [reflexivity | exact Hsigma].
Qed.

Lemma step_keeps_or_takes (st : cv.otsu_state) (i : Z) (scale mu : Q) :
  cv.max_val (cv.otsu_step h scale mu st i) = cv.max_val st \/
  cv.max_val (cv.otsu_step h scale mu st i) = i.
Proof.
  unfold cv.otsu_step. destruct (cv.otsu_skip _ _); [left; reflexivity|].
  destruct (cv.ltb _ _); [right | left]; reflexivity.
Qed.

Lemma loop_between (i : nat) :
  (lo < hi)%nat -> (lo < i <= 256)%nat ->
  Z.of_nat lo <= cv.max_val (otsu_loop h n i) < Z.of_nat i.
Proof.
  intros Hlt [Hi1 Hi2]. induction Hi1 as [|i Hi1 IH].
  - destruct (step_at_lo Hlt) as [-> _]. lia.
  - specialize (IH ltac:(lia)). rewrite otsu_loop_S.
    destruct (step_keeps_or_takes (otsu_loop h n i) (Z.of_nat i)
                (otsu_scale n) (otsu_mean h n)) as [-> | ->]; lia.
Qed.

(** The level that the loop returns lies between the darkest and the
    brightest level of the image, the brightest excluded; it is 0 when the
    image has one level only. *)
Lemma loop_two_levels :
  (lo < hi)%nat ->
  Z.of_nat lo <= cv.max_val (otsu_loop h n 256) < Z.of_nat hi.
Proof.
  intros Hlt. rewrite (loop_above 256) by lia.
  apply loop_between; [exact Hlt | lia].
Qed.

Lemma loop_one_level : lo = hi -> cv.max_val (otsu_loop h n 256) = 0.
Proof.
  intros E. rewrite (loop_above 256) by lia.
  rewrite <- E, loop_before by lia. reflexivity.
Qed.


End Extremes.
End Loop.

(** The level kept by the loop is the first at which the variance that the
    loop computes is greatest. *)
Section Argmax.

Variable h : Z -> Z.
Variable n : Z.

Abbreviation sigma_at i :=
  (otsu_variance h (otsu_scale n) (otsu_mean h n) (otsu_loop h n i)
     (Z.of_nat i)).

Lemma loop_argmax (i : nat) :
  (0 <= cv.max_sigma (otsu_loop h n i))%Q /\
  (forall j v, (j < i)%nat -> sigma_at j = Some v ->
               (v <= cv.max_sigma (otsu_loop h n i))%Q) /\
  ((cv.max_sigma (otsu_loop h n i) = 0%Q /\ cv.max_val (otsu_loop h n i) = 0) \/
   exists t, (t < i)%nat /\ cv.max_val (otsu_loop h n i) = Z.of_nat t /\
     sigma_at t = Some (cv.max_sigma (otsu_loop h n i)) /\
     (0 < cv.max_sigma (otsu_loop h n i))%Q /\
     forall j v, (j < t)%nat -> sigma_at j = Some v ->
                 (v < cv.max_sigma (otsu_loop h n i))%Q).
Proof.
  induction i as [|i (Hpos & Hmax & Hbest)].
  - split; [cbn; lra|]. split; [intros j v Hj; lia|]. left. split; reflexivity.
  - rewrite otsu_loop_S.
    pose proof (otsu_step_variance h (otsu_scale n) (otsu_mean h n)
                  (otsu_loop h n i) (Z.of_nat i)) as Hstep.
    destruct (sigma_at i) as [s|] eqn:Hs.
    + destruct (cv.ltb (cv.max_sigma (otsu_loop h n i)) s) eqn:Hlt.
      * destruct Hstep as [-> ->]. apply ltb_lt in Hlt.
        split; [lra|]. split.
        -- intros j v Hj Hv. destruct (Nat.eq_dec j i) as [-> | Hne].
           ++ rewrite Hs in Hv. injection Hv as <-. lra.
           ++ specialize (Hmax j v ltac:(lia) Hv). lra.
        -- right. exists i. split; [lia|]. split; [reflexivity|].
           split; [exact Hs|]. split; [lra|].
           intros j v Hj Hv. specialize (Hmax j v Hj Hv). lra.
      * destruct Hstep as [-> ->]. apply ltb_ge in Hlt.
        split; [exact Hpos|]. split.
        -- intros j v Hj Hv. destruct (Nat.eq_dec j i) as [-> | Hne].
           ++ rewrite Hs in Hv. injection Hv as <-. exact Hlt.
           ++ apply (Hmax j v); [lia | exact Hv].
        -- destruct Hbest as [Hz | (t & Ht & Hrest)]; [left; exact Hz|].
           right. exists t. split; [lia | exact Hrest].
    + destruct Hstep as [-> ->].
      split; [exact Hpos|]. split.
      * intros j v Hj Hv. destruct (Nat.eq_dec j i) as [-> | Hne].
        -- rewrite Hs in Hv. discriminate.
        -- apply (Hmax j v); [lia | exact Hv].
      * destruct Hbest as [Hz | (t & Ht & Hrest)]; [left; exact Hz|].
        right. exists t. split; [lia | exact Hrest].
Qed.

End Argmax.

(** *** The histogram of an image *)

Lemma histogram_nonneg (d : list Z) (k : Z) : 0 <= cv.histogram d k.
Proof. unfold cv.histogram. lia. Qed.

Lemma histogram_absent (d : list Z) (k : Z) :
  ~ In k d -> cv.histogram d k = 0.
Proof.
  intros Hk. unfold cv.histogram.
  apply (proj1 (count_occ_not_In Z.eq_dec d k)) in Hk. lia.
Qed.

Lemma histogram_present (d : list Z) (k : Z) :
  In k d -> 0 < cv.histogram d k.
Proof.
  intros Hk. unfold cv.histogram.
  apply (proj1 (count_occ_In Z.eq_dec d k)) in Hk. lia.
Qed.

Lemma filter_below_succ (d : list Z) (i : Z) :
  Z.of_nat (length (List.filter (fun v => v <? i + 1) d)) =
  Z.of_nat (length (List.filter (fun v => v <? i) d)) + cv.histogram d i.
Proof.
  unfold cv.histogram. induction d as [|v d IH]; [reflexivity|].
  cbn [List.filter count_occ].
  destruct (Z.ltb_spec v (i + 1)), (Z.ltb_spec v i), (Z.eq_dec v i);
    cbn [length]; lia.
Qed.

Lemma filter_none (d : list Z) (c : Z -> bool) :
  Forall (fun v => c v = false) d -> List.filter c d = [].
Proof.
  induction 1 as [|v d Hv _ IH]; [reflexivity|]. cbn [List.filter].
  by rewrite Hv.
Qed.

Lemma filter_all (d : list Z) (c : Z -> bool) :
  Forall (fun v => c v = true) d -> List.filter c d = d.
Proof.
  induction 1 as [|v d Hv _ IH]; [reflexivity|]. cbn [List.filter].
  by rewrite Hv, IH.
Qed.

Section Histogram.
Variable d : list Z.
Hypothesis Hd : Forall (fun v => 0 <= v < 256) d.

Lemma prefix_count (i : nat) :
  prefix_sum (cv.histogram d) i =
  Z.of_nat (length (List.filter (fun v => v <? Z.of_nat i) d)).
Proof.
  induction i as [|i IH].
  - cbn [prefix_sum]. rewrite filter_none; [reflexivity|].
    eapply Forall_impl; [exact Hd|]. intros v Hv. cbv beta in *.
    apply Z.ltb_ge. lia.
  - cbn [prefix_sum]. rewrite IH, Nat2Z.inj_succ, <- Z.add_1_r.
    by rewrite filter_below_succ.
Qed.

Lemma prefix_all : prefix_sum (cv.histogram d) 256 = Z.of_nat (length d).
Proof.
  rewrite prefix_count, filter_all; [reflexivity|].
  eapply Forall_impl; [exact Hd|]. intros v Hv. cbv beta in *.
  apply Z.ltb_lt. lia.
Qed.

End Histogram.

Lemma getThreshVal_loop (m : cv.Mat) :
  0 < Z.of_nat (cv.total m) ->
  cv.getThreshVal_Otsu_8u m =
  cv.max_val
    (otsu_loop (cv.histogram (cv.data m)) (Z.of_nat (cv.total m)) 256).
Proof.
  intros Hn. unfold cv.getThreshVal_Otsu_8u. cbv zeta.
  destruct (Z.eqb_spec (Z.of_nat (cv.total m)) 0); [lia|].
  unfold otsu_loop, otsu_mean, otsu_moment, otsu_scale, cv.levels.
  reflexivity.
Qed.

(** The level is one of the 256, whatever the image. *)
Lemma otsu_range (m : cv.Mat) : 0 <= cv.getThreshVal_Otsu_8u m < 256.
Proof.
  destruct (Z.eq_dec (Z.of_nat (cv.total m)) 0) as [E | E].
  - unfold cv.getThreshVal_Otsu_8u. cbv zeta. rewrite E.
    change (0 =? 0) with true. cbv iota. lia.
  - rewrite getThreshVal_loop by lia.
    destruct (loop_argmax (cv.histogram (cv.data m)) (Z.of_nat (cv.total m)) 256)
      as (_ & _ & [[_ ->] | (t & Ht & -> & _)]); lia.
Qed.

(** An image that is not empty has a darkest and a brightest level. *)
Lemma extremes (d : list Z) :
  d <> [] ->
  exists lo hi, In lo d /\ In hi d /\ Forall (fun v => lo <= v <= hi) d.
Proof.
  induction d as [|v d IH]; [done|]. intros _.
  destruct d as [|w d].
  - exists v, v. split; [by left|]. split; [by left|].
    constructor; [lia | constructor].
  - destruct (IH ltac:(done)) as (lo & hi & Hlo & Hhi & Hall).
    exists (Z.min v lo), (Z.max v hi). split; [|split].
    + destruct (Z.min_spec v lo) as [[_ ->] | [_ ->]]; [by left | by right].
    + destruct (Z.max_spec v hi) as [[_ ->] | [_ ->]]; [by right | by left].
    + constructor; [lia|].
      eapply Forall_impl; [exact Hall|]. intros u Hu. cbv beta in *. lia.
Qed.

(** The level that the library computes for an image of fewer than 2^23
    pixels lies between the darkest and the brightest level, the brightest
    excluded, and is 0 on an image of one level. *)
Lemma otsu_between (m : cv.Mat) (lo hi : Z) :
  length (cv.data m) = cv.total m ->
  0 < Z.of_nat (cv.total m) < 8388608 ->
  Forall (fun v => lo <= v <= hi) (cv.data m) ->
  In lo (cv.data m) -> In hi (cv.data m) -> 0 <= lo -> hi < 256 ->
  (lo < hi -> lo <= cv.getThreshVal_Otsu_8u m < hi) /\
  (lo = hi -> cv.getThreshVal_Otsu_8u m = 0).
Proof.
  intros Hl Hn Hd Hlo Hhi Hlo0 Hhi256.
  assert (Hle : lo <= hi).
  { rewrite List.Forall_forall in Hd. specialize (Hd lo Hlo). lia. }
  assert (Hrange : Forall (fun v => 0 <= v < 256) (cv.data m)).
  { eapply Forall_impl; [exact Hd|]. intros v Hv. cbv beta in *. lia. }
  rewrite getThreshVal_loop by lia.
  set (h := cv.histogram (cv.data m)). set (n := Z.of_nat (cv.total m)).
  assert (Hh : forall k, 0 <= h k) by (intros k; apply histogram_nonneg).
  assert (Hall : count_below h 256 = n).
  { unfold count_below, h, n. rewrite prefix_all by done. by rewrite Hl. }
  assert (Hlohi : (Z.to_nat lo <= Z.to_nat hi < 256)%nat) by lia.
  assert (Hbelow : forall k, (k < Z.to_nat lo)%nat -> h (Z.of_nat k) = 0).
  { intros k Hk. apply histogram_absent. intros Hin.
    rewrite List.Forall_forall in Hd. specialize (Hd _ Hin). lia. }
  assert (Habove : forall k, (Z.to_nat hi < k)%nat -> h (Z.of_nat k) = 0).
  { intros k Hk. apply histogram_absent. intros Hin.
    rewrite List.Forall_forall in Hd. specialize (Hd _ Hin). lia. }
  assert (Hplo : 0 < h (Z.of_nat (Z.to_nat lo))).
  { rewrite Z2Nat.id by lia. by apply histogram_present. }
  assert (Hphi : 0 < h (Z.of_nat (Z.to_nat hi))).
  { rewrite Z2Nat.id by lia. by apply histogram_present. }
  split.
  - intros Hlt.
    pose proof (loop_two_levels h n Hn Hh Hall (Z.to_nat lo) (Z.to_nat hi)
                  Hlohi Hbelow Habove Hplo Hphi ltac:(lia)) as H.
    rewrite !Z2Nat.id in H by lia. exact H.
  - intros E.
    apply (loop_one_level h n Hn Hh Hall (Z.to_nat lo) (Z.to_nat hi)
             Hlohi Hbelow Habove). by rewrite E.
Qed.

(** The three cases in the words of the images. *)
Lemma otsu_bimodal (m : cv.Mat) :
  length (cv.data m) = cv.total m ->
  0 < Z.of_nat (cv.total m) < 8388608 ->
  Forall (fun v => v = 10 \/ v = 240) (cv.data m) ->
  In 10 (cv.data m) -> In 240 (cv.data m) ->
  10 <= cv.getThreshVal_Otsu_8u m < 240.
Proof.
  intros Hl Hn Hd H10 H240.
  apply (otsu_between m 10 240); try done.
  eapply Forall_impl; [exact Hd|]. intros v Hv. cbv beta in *. lia.
Qed.

Lemma otsu_splits (g : cv.Mat) (a b : Z) :
  length (cv.data g) = cv.total g ->
  0 < Z.of_nat (cv.total g) < 8388608 ->
  Forall (fun v => 0 <= v < 256) (cv.data g) ->
  In a (cv.data g) -> In b (cv.data g) -> a < b ->
  (exists u, In u (cv.data g) /\ u <= cv.getThreshVal_Otsu_8u g) /\
  (exists w, In w (cv.data g) /\ cv.getThreshVal_Otsu_8u g < w).
Proof.
  intros Hl Hn Hd Ha Hb Hab.
  destruct (extremes (cv.data g)) as (lo & hi & Hlo & Hhi & Hall).
  { intros E. rewrite E in Ha. done. }
  destruct (otsu_between g lo hi Hl Hn Hall Hlo Hhi) as [HT _].
  { rewrite List.Forall_forall in Hd. specialize (Hd lo Hlo). lia. }
  { rewrite List.Forall_forall in Hd. specialize (Hd hi Hhi). lia. }
  rewrite List.Forall_forall in Hall.
  pose proof (Hall a Ha). pose proof (Hall b Hb).
  specialize (HT ltac:(lia)).
  split; [exists lo | exists hi]; split; (done || lia).
Qed.

Lemma otsu_flat (g : cv.Mat) (c : Z) :
  length (cv.data g) = cv.total g ->
  0 < Z.of_nat (cv.total g) < 8388608 ->
  0 <= c < 256 -> Forall (fun v => v = c) (cv.data g) ->
  cv.getThreshVal_Otsu_8u g = 0.
Proof.
  intros Hl Hn Hc Hflat.
  assert (Hin : In c (cv.data g)).
  { destruct (cv.data g) as [|v d] eqn:E; [cbn in Hl; lia|].
    inversion Hflat; subst. by left. }
  assert (Hd : Forall (fun v => c <= v <= c) (cv.data g)).
  { eapply Forall_impl; [exact Hflat|]. intros v ->. lia. }
  destruct (otsu_between g c c Hl Hn Hd Hin Hin) as [_ HT]; [lia | lia |].
  by apply HT.
Qed.

Lemma otsu_below_255 (m : cv.Mat) :
  length (cv.data m) = cv.total m ->
  0 < Z.of_nat (cv.total m) < 8388608 ->
  Forall (fun v => 0 <= v < 256) (cv.data m) ->
  0 <= cv.getThreshVal_Otsu_8u m < 255.
Proof.
  intros Hl Hn Hd.
  destruct (extremes (cv.data m)) as (lo & hi & Hlo & Hhi & Hall).
  { intros E. rewrite E in Hl. cbn in Hl. lia. }
  rewrite List.Forall_forall in Hd.
  pose proof (Hd lo Hlo). pose proof (Hd hi Hhi).
  assert (lo <= hi).
  { rewrite List.Forall_forall in Hall. specialize (Hall lo Hlo). lia. }
  destruct (otsu_between m lo hi Hl Hn Hall Hlo Hhi) as [Htwo Hone];
    [lia | lia |].
  destruct (Z.eq_dec lo hi) as [E | E].
  - rewrite (Hone E). lia.
  - specialize (Htwo ltac:(lia)). lia.
Qed.

Section AutoGlobal.

Variable luma : Z -> Z -> Z -> Z.
Variable localMean : cv.AdaptiveThresholdTypes -> Z -> cv.Mat -> nat -> Z.

Lemma two_level_rule (T : Z) (d : list Z) :
  Forall (fun v => v = 10 \/ v = 240) d -> 10 <= T < 240 ->
  map (fun v => if T <? v then 255 else 0) d =
  map (fun v => if v =? 240 then 255 else 0) d.
Proof.
  intros Hd HT. induction Hd as [|v d Hv _ IH]; [reflexivity|].
  cbn [map]. rewrite IH. f_equal.
  destruct Hv as [-> | ->]; destruct (Z.ltb_spec T 10), (Z.ltb_spec T 240);
    (reflexivity || lia).
Qed.


End AutoGlobal.

(** ** Further properties of the entry points *)

Section MoreBinarizer.

Variable luma : Z -> Z -> Z -> Z.
Variable localMean : cv.AdaptiveThresholdTypes -> Z -> cv.Mat -> nat -> Z.

Abbreviation dither := (nativeApplyDithering luma localMean).

Lemma load_inv (h h' : gmap Z cv.Mat) (matAddr : Z) (m : cv.Mat) :
  load matAddr h = (Returned m, h') ->
  matAddr <> 0 /\ h !! matAddr = Some m /\ h' = h.
Proof.
  unfold load. destruct (Z.eqb_spec matAddr 0); [done|].
  destruct (h !! matAddr); [|done]. intros [= -> ->]. done.
Qed.

Lemma load_dead (h : gmap Z cv.Mat) (matAddr : Z) :
  matAddr = 0 \/ h !! matAddr = None -> load matAddr h = (Fault, h).
Proof.
  intros Hd. unfold load. destruct (Z.eqb_spec matAddr 0); [reflexivity|].
  destruct Hd as [? | ->]; [done | reflexivity].
Qed.

Lemma dither_dead (h : gmap Z cv.Mat) (matAddr algorithm : Z) :
  matAddr = 0 \/ h !! matAddr = None ->
  dither matAddr algorithm h = (Fault, h).
Proof.
  intros Hd. unfold nativeApplyDithering.
  by rewrite bind_unfold, load_dead.
Qed.

Lemma dither_returned (h h' : gmap Z cv.Mat) (matAddr algorithm : Z)
    (m : cv.Mat) :
  matAddr <> 0 -> h !! matAddr = Some m -> 1 <= cv.channels m ->
  length (cv.data m) = (cv.total m * Z.to_nat (cv.channels m))%nat ->
  dither matAddr algorithm h = (Returned tt, h') ->
  exists m',
    h' !! matAddr = Some m' /\
    (h' = h \/ h' = <[matAddr := m']> h) /\
    cv.rows m' = cv.rows m /\ cv.cols m' = cv.cols m /\
    cv.channels m' = 1 /\ length (cv.data m') = cv.total m' /\
    (1 < cv.channels m -> cv.empty m = false) /\
    (algorithm = 0 \/ algorithm = 1 \/ algorithm = 2 ->
     Forall (fun v => v = 0 \/ v = 255) (cv.data m')).
Proof.
  intros Hn Hm Hc Hl Hrun.
  assert (Hsingle : forall (h0 : gmap Z cv.Mat) (g : cv.Mat),
            h0 !! matAddr = Some g -> cv.channels g = 1 ->
            length (cv.data g) = cv.total g ->
            dither matAddr algorithm h0 = (Returned tt, h') ->
            exists m', h' !! matAddr = Some m' /\
              (h' = h0 \/ h' = <[matAddr := m']> h0) /\
              cv.rows m' = cv.rows g /\ cv.cols m' = cv.cols g /\
              cv.channels m' = 1 /\ length (cv.data m') = cv.total m' /\
              (algorithm = 0 \/ algorithm = 1 \/ algorithm = 2 ->
               Forall (fun v => v = 0 \/ v = 255) (cv.data m'))).
  { intros h0 g Hg Hg1 Hgl Hr.
    assert (He : algorithm = 1 -> cv.empty g = false).
    { intros ->. destruct (cv.empty g) eqn:He; [|reflexivity].
      rewrite (dither_single luma localMean h0 matAddr 1 g) in Hr by done.
      rewrite He in Hr. done. }
    destruct (Z.eq_dec algorithm 0) as [H0|H0];
      [|destruct (Z.eq_dec algorithm 1) as [H1|H1];
        [|destruct (Z.eq_dec algorithm 2) as [H2|H2]]].
    1-3: destruct (dither_single_binary luma localMean h0 matAddr algorithm g
                     Hn Hg Hg1 Hgl He ltac:(auto))
           as (m' & Hm' & Hr' & Hc' & Hch' & Hl' & Hb);
         rewrite Hm' in Hr; injection Hr as <-; exists m';
         rewrite lookup_insert_eq; repeat split; auto.
    destruct (dither_unknown_selector luma localMean h0 matAddr algorithm
                H0 H1 H2) as [_ Hs].
    rewrite (Hs g) in Hr by done. injection Hr as <-. exists g.
    repeat split; auto. intros [?|[?|?]]; done. }
  destruct (Z.eq_dec (cv.channels m) 1) as [H1 | H1].
  - destruct (Hsingle h m Hm H1) as (m' & ? & ? & ? & ? & ? & ? & ?); [|done|].
    { rewrite Hl, H1. change (Z.to_nat 1) with 1%nat. lia. }
    exists m'. repeat split; auto. lia.
  - destruct (cv.cvtColor luma m cv.COLOR_BGR2GRAY) as [g | e] eqn:Hg.
    + destruct (cvtColor_done luma m g Hg) as (He & Hch & Hgm).
      rewrite (dither_multi luma localMean h matAddr algorithm m g) in Hrun
        by (done || lia).
      destruct (Hsingle (<[matAddr := g]> h) g (lookup_insert_eq _ _ _))
        as (m' & Hm' & Hh' & Hr' & Hc' & Hch' & Hl' & Hb); try done.
      { by rewrite Hgm. }
      { rewrite Hgm. cbn [cv.data]. by rewrite bgr2gray_length. }
      exists m'. rewrite Hgm in Hr', Hc'. cbn [cv.rows cv.cols] in Hr', Hc'.
      repeat split; auto.
      right. destruct Hh' as [-> | ->].
      * rewrite lookup_insert_eq in Hm'. by injection Hm' as <-.
      * by rewrite insert_insert_eq.
    + rewrite (dither_refused luma localMean h matAddr algorithm m e) in Hrun
        by (done || lia). done.
Qed.

(** X3. Whenever the binarizer returns on a live buffer that is as long
    as its header says, the buffer has kept its width and height, has one
    channel and one byte per pixel, and with a selector 0, 1 or 2 every byte
    is 0 or 255; this covers four-channel buffers as well. *)
Theorem binarize_postcondition (h h' : gmap Z cv.Mat) (matAddr algorithm : Z)
    (m : cv.Mat) :
  matAddr <> 0 -> h !! matAddr = Some m -> 1 <= cv.channels m ->
  length (cv.data m) = (cv.total m * Z.to_nat (cv.channels m))%nat ->
  dither matAddr algorithm h = (Returned tt, h') ->
  exists m',
    h' !! matAddr = Some m' /\
    cv.rows m' = cv.rows m /\ cv.cols m' = cv.cols m /\
    cv.channels m' = 1 /\ length (cv.data m') = cv.total m' /\
    (algorithm = 0 \/ algorithm = 1 \/ algorithm = 2 ->
     Forall (fun v => v = 0 \/ v = 255) (cv.data m')).
Proof.
  intros Hn Hm Hc Hl Hrun.
  destruct (dither_returned h h' matAddr algorithm m Hn Hm Hc Hl Hrun)
    as (m' & ? & _ & ? & ? & ? & ? & _ & ?).
  exists m'. auto 10.
Qed.

End MoreBinarizer.

Section Pipeline.

Variable luma : Z -> Z -> Z -> Z.
Variable localMean : cv.AdaptiveThresholdTypes -> Z -> cv.Mat -> nat -> Z.

Abbreviation dither := (nativeApplyDithering luma localMean).


(** X8. The grey report refuses what the binarizer leaves: after any call
    of the binarizer that returns on a live buffer, the report raises (the
    channel-count error, or the empty-input error on an empty buffer) and
    returns no text. *)
Theorem binarize_then_report (h h' : gmap Z cv.Mat) (matAddr algorithm : Z)
    (m : cv.Mat) :
  matAddr <> 0 -> h !! matAddr = Some m -> 1 <= cv.channels m ->
  length (cv.data m) = (cv.total m * Z.to_nat (cv.channels m))%nat ->
  dither matAddr algorithm h = (Returned tt, h') ->
  nativeProcessImage luma matAddr h' =
  (Thrown (if cv.empty m then cv.EmptyInput else cv.BadNumberOfChannels), h').
Proof.
  intros Hn Hm Hc Hl Hrun.
  destruct (dither_returned luma localMean h h' matAddr algorithm m
              Hn Hm Hc Hl Hrun) as (m' & Hm' & _ & Hr & Hcl & Hc' & _).
  rewrite (report_live luma h' matAddr m' Hn Hm').
  unfold cv.cvtColor, cv.empty, cv.total. rewrite Hr, Hcl, Hc'.
  by destruct (Nat.eqb _ _).
Qed.

(** X12. On a live buffer of several channels the report and the
    binarizer accept and refuse together: the report returns a text exactly
    when the binarizer returns, with any selector, and each raises exactly
    the exceptions the other raises. *)
Theorem report_and_binarize_agree (h : gmap Z cv.Mat) (matAddr algorithm : Z)
    (m : cv.Mat) :
  matAddr <> 0 -> h !! matAddr = Some m -> 1 < cv.channels m ->
  ((exists s, (nativeProcessImage luma matAddr h).1 = Returned s) <->
   (dither matAddr algorithm h).1 = Returned tt) /\
  (forall e, (nativeProcessImage luma matAddr h).1 = Thrown e <->
             (dither matAddr algorithm h).1 = Thrown e).
Proof.
  intros Hn Hm Hc. rewrite (report_live luma h matAddr m Hn Hm).
  destruct (cv.cvtColor luma m cv.COLOR_BGR2GRAY) as [g | e] eqn:Hg.
  - destruct (cvtColor_grey luma m g Hg) as [Hg1 Hge].
    rewrite (dither_multi luma localMean h matAddr algorithm m g) by done.
    pose proof (dither_single_returns luma localMean (<[matAddr := g]> h)
                  matAddr algorithm g Hn (lookup_insert_eq _ _ _) Hg1 Hge)
      as Hr.
    rewrite Hr. cbn [fst]. split; [split; eauto|]. intros e; split; done.
  - rewrite (dither_refused luma localMean h matAddr algorithm m e) by done.
    cbn [fst]. split.
    + split; [intros [s Hs]; done | done].
    + intros e'. split; intros [= ->]; reflexivity.
Qed.

End Pipeline.

(** *** More on the automatic threshold *)

Lemma levels_fixed (T : Z) (d : list Z) :
  0 <= T < 255 -> Forall (fun v => v = 0 \/ v = 255) d ->
  map (fun v => if T <? v then 255 else 0) d = d.
Proof.
  intros HT. induction 1 as [|v d Hv _ IH]; [reflexivity|].
  cbn [map]. rewrite IH. f_equal.
  destruct Hv as [-> | ->]; destruct (Z.ltb_spec T 0), (Z.ltb_spec T 255);
    (reflexivity || lia).
Qed.

Lemma flat_rule (c : Z) (d : list Z) :
  Forall (fun v => v = c) d -> 0 <= c ->
  map (fun v => if 0 <? v then 255 else 0) d =
  map (fun _ => if c =? 0 then 0 else 255) d.
Proof.
  intros Hd Hc. induction Hd as [|v d -> _ IH]; [reflexivity|].
  cbn [map]. rewrite IH. f_equal.
  destruct (Z.ltb_spec 0 c), (Z.eqb_spec c 0); (reflexivity || lia).
Qed.

Section MoreAutoGlobal.

Variable luma : Z -> Z -> Z -> Z.
Variable localMean : cv.AdaptiveThresholdTypes -> Z -> cv.Mat -> nat -> Z.

(** X4. A binary image is a fixed point of the fixed and of the automatic
    global algorithm: on a live buffer of at least one and fewer than 2^23
    pixels whose bytes are all 0 or 255, a call with selector 0 or 2
    returns and leaves the store as it was. *)
Theorem binary_image_fixed (h : gmap Z cv.Mat) (matAddr algorithm : Z)
    (m : cv.Mat) :
  matAddr <> 0 -> h !! matAddr = Some m -> binary_image m ->
  0 < Z.of_nat (cv.total m) < 8388608 ->
  algorithm = 0 \/ algorithm = 2 ->
  nativeApplyDithering luma localMean matAddr algorithm h = (Returned tt, h).
Proof.
  intros Hn Hm (Hc & Hl & Hb) Hsz Ha.
  rewrite (dither_single luma localMean h matAddr algorithm m) by done.
  assert (Hid : forall T, 0 <= T < 255 ->
            <[matAddr := cv.mkMat (cv.rows m) (cv.cols m) 1
                (map (fun v => if T <? v then 255 else 0) (cv.data m))]> h = h).
  { intros T HT. rewrite levels_fixed by done. apply insert_id.
    rewrite Hm. f_equal. destruct m; cbn in *. by subst. }
  destruct Ha as [-> | ->].
  - by rewrite Hid by lia.
  - rewrite Hid; [done|]. apply otsu_below_255; [done | done |].
    eapply Forall_impl; [exact Hb|]. intros v Hv. cbv beta in *. lia.
Qed.

(** X5. The automatic global algorithm never flattens an image that has
    two different levels: on a grey buffer of fewer than 2^23 pixels with
    two pixels of different values, the output holds a pixel at 0 and a
    pixel at 255. *)
Theorem auto_global_keeps_both_levels (h : gmap Z cv.Mat) (matAddr : Z)
    (g : cv.Mat) (a b : Z) :
  matAddr <> 0 -> h !! matAddr = Some g -> cv.channels g = 1 ->
  length (cv.data g) = cv.total g ->
  0 < Z.of_nat (cv.total g) < 8388608 ->
  Forall (fun v => 0 <= v < 256) (cv.data g) ->
  In a (cv.data g) -> In b (cv.data g) -> a < b ->
  exists m',
    nativeApplyDithering luma localMean matAddr 2 h =
      (Returned tt, <[matAddr := m']> h) /\
    In 0 (cv.data m') /\ In 255 (cv.data m').
Proof.
  intros Hn Hg Hc Hl Hsz Hd Ha Hb Hab.
  rewrite (dither_single luma localMean h matAddr 2 g) by done.
  eexists. split; [reflexivity|]. cbn [cv.data].
  destruct (otsu_splits g a b Hl Hsz Hd Ha Hb Hab)
    as ((u & Hu & Hle) & (w & Hw & Hlt)).
  split.
  - apply in_map_iff. exists u. split; [|done].
    by destruct (Z.ltb_spec (cv.getThreshVal_Otsu_8u g) u); [lia|].
  - apply in_map_iff. exists w. split; [|done].
    by destruct (Z.ltb_spec (cv.getThreshVal_Otsu_8u g) w); [|lia].
Qed.

(** X6. The automatic global algorithm on a flat image: when every pixel
    of a grey buffer of at least one and fewer than 2^23 pixels has the
    same value, the level computed is 0, so the image becomes all 255, or
    stays all 0 when it was black. *)
Theorem auto_global_flat_image (h : gmap Z cv.Mat) (matAddr : Z)
    (g : cv.Mat) (c : Z) :
  matAddr <> 0 -> h !! matAddr = Some g -> cv.channels g = 1 ->
  length (cv.data g) = cv.total g ->
  0 < Z.of_nat (cv.total g) < 8388608 ->
  0 <= c < 256 -> Forall (fun v => v = c) (cv.data g) ->
  cv.getThreshVal_Otsu_8u g = 0 /\
  nativeApplyDithering luma localMean matAddr 2 h =
    (Returned tt,
     <[matAddr := cv.mkMat (cv.rows g) (cv.cols g) 1
         (map (fun _ => if c =? 0 then 0 else 255) (cv.data g))]> h).
Proof.
  intros Hn Hg Hc Hl Hsz Hcr Hflat.
  pose proof (otsu_flat g c Hl Hsz Hcr Hflat) as HT0.
  split; [exact HT0|].
  rewrite (dither_single luma localMean h matAddr 2 g) by done.
  rewrite HT0. do 3 f_equal. apply flat_rule; [exact Hflat | lia].
Qed.

End MoreAutoGlobal.

(** *** The tracer on an image that is not blank *)

Lemma scan_pixel_found (sc : cv.Scanner) (p : cv.Point) :
  cv.found (cv.scan_pixel sc p) = cv.found sc \/
  exists c, cv.found (cv.scan_pixel sc p) = c :: cv.found sc.
Proof.
  unfold cv.scan_pixel. destruct (_ =? 0); [by left|].
  destruct (_ || _); [|by left].
  destruct (cv.fetchContour _ _ _ _) as [img' pts]. right. eauto.
Qed.

Lemma scan_pixel_keeps_top (sc : cv.Scanner) (p : cv.Point) :
  has_top_level (cv.found sc) -> has_top_level (cv.found (cv.scan_pixel sc p)).
Proof.
  intros Ht. destruct (scan_pixel_found sc p) as [-> | [c ->]]; [done|].
  by apply Exists_cons_tl.
Qed.

Lemma scan_pixels_keep_top (sc : cv.Scanner) (y : Z) (xs : list Z) :
  has_top_level (cv.found sc) ->
  has_top_level
    (cv.found (fold_left (fun sc x => cv.scan_pixel sc (x, y)) xs sc)).
Proof.
  revert sc. induction xs as [|x xs IH]; intros sc Ht; [done|].
  cbn [fold_left]. by apply IH, scan_pixel_keeps_top.
Qed.

Lemma scan_row_keeps_top (sc : cv.Scanner) (y : Z) :
  has_top_level (cv.found sc) -> has_top_level (cv.found (cv.scan_row sc y)).
Proof. intros Ht. unfold cv.scan_row. by apply scan_pixels_keep_top. Qed.

Lemma scan_rows_keep_top (sc : cv.Scanner) (ys : list Z) :
  has_top_level (cv.found sc) ->
  has_top_level (cv.found (fold_left cv.scan_row ys sc)).
Proof.
  revert sc. induction ys as [|y ys IH]; intros sc Ht; [done|].
  cbn [fold_left]. by apply IH, scan_row_keeps_top.
Qed.

(** The first non-zero pixel that the scan meets starts an outer border
    under the frame. *)
Lemma scan_pixel_first (image : cv.Image) (p : cv.Point) :
  cv.get image p = 1 -> cv.get image (p.1 - 1, p.2) = 0 ->
  has_top_level (cv.found (cv.scan_pixel (cv.mkScanner image 1 1 []) p)).
Proof.
  intros H1 Hw. unfold cv.scan_pixel. cbn [cv.img cv.found cv.nbd cv.lnbd].
  rewrite H1, Hw. cbn [Z.eqb Pos.eqb andb orb negb].
  destruct (cv.fetchContour _ _ _ _) as [img' pts]. cbn [cv.found].
  apply Exists_cons_hd. reflexivity.
Qed.

Section FirstPixel.

Variable image : cv.Image.
Hypothesis Hbin : forall p, cv.get image p = 0 \/ cv.get image p = 1.

Abbreviation init := (cv.mkScanner image 1 1 []).

Lemma scan_pixels_first (y : Z) (i : nat) :
  let st := fold_left (fun sc x => cv.scan_pixel sc (x, y))
              (map Z.of_nat (seq 0 i)) init in
  has_top_level (cv.found st) \/
  (st = init /\ forall x, (x < i)%nat -> cv.get image (Z.of_nat x, y) = 0).
Proof.
  induction i as [|i IH]; cbv zeta.
  - right. split; [reflexivity|]. intros x Hx. lia.
  - rewrite seq_S, map_app, fold_left_app. cbn [fold_left map Nat.add].
    cbv zeta in IH. destruct IH as [Ht | [-> Hz]].
    + left. by apply scan_pixel_keeps_top.
    + destruct (Hbin (Z.of_nat i, y)) as [H0 | H1].
      * right. split.
        -- unfold cv.scan_pixel. cbn [cv.img]. by rewrite H0.
        -- intros x Hx. destruct (Nat.eq_dec x i) as [-> | Hne]; [done|].
           apply Hz. lia.
      * left. apply scan_pixel_first; [done|]. cbn [fst snd].
        destruct i as [|i].
        -- unfold cv.get, cv.inside. cbn [fst snd]. reflexivity.
        -- replace (Z.of_nat (S i) - 1) with (Z.of_nat i) by lia.
           apply Hz. lia.
Qed.

Lemma scan_row_first (y : Z) :
  has_top_level (cv.found (cv.scan_row init y)) \/
  (cv.scan_row init y = init /\
   forall x, (x < Z.to_nat (cv.width image))%nat ->
             cv.get image (Z.of_nat x, y) = 0).
Proof. exact (scan_pixels_first y (Z.to_nat (cv.width image))). Qed.

Lemma scan_rows_first (j : nat) :
  let st := fold_left cv.scan_row (map Z.of_nat (seq 0 j)) init in
  has_top_level (cv.found st) \/
  (st = init /\
   forall y x, (y < j)%nat -> (x < Z.to_nat (cv.width image))%nat ->
               cv.get image (Z.of_nat x, Z.of_nat y) = 0).
Proof.
  induction j as [|j IH]; cbv zeta.
  - right. split; [reflexivity|]. intros y x Hy. lia.
  - rewrite seq_S, map_app, fold_left_app. cbn [fold_left map Nat.add].
    cbv zeta in IH. destruct IH as [Ht | [-> Hz]].
    + left. by apply scan_row_keeps_top.
    + destruct (scan_row_first (Z.of_nat j)) as [Ht | [-> Hrow]]; [by left|].
      right. split; [reflexivity|]. intros y x Hy Hx.
      destruct (Nat.eq_dec y j) as [-> | Hne]; [by apply Hrow|].
      apply Hz; lia.
Qed.

Lemma scan_first :
  has_top_level (cv.scan image) \/
  forall y x, (y < Z.to_nat (cv.height image))%nat ->
              (x < Z.to_nat (cv.width image))%nat ->
              cv.get image (Z.of_nat x, Z.of_nat y) = 0.
Proof.
  unfold cv.scan.
  destruct (scan_rows_first (Z.to_nat (cv.height image))) as [Ht | [_ Hz]];
    [by left | by right].
Qed.

End FirstPixel.

Lemma flat_map_top (g : cv.ContourInfo -> list cv.ContourInfo)
    (l : list cv.ContourInfo) :
  has_top_level l ->
  flat_map (fun c => c :: g c) (List.filter (fun c => cv.parent c =? 1) l)
  <> [].
Proof.
  induction 1 as [c l Hc | c l _ IH]; cbn [List.filter].
  - rewrite Hc. cbn [Z.eqb Pos.eqb flat_map]. done.
  - destruct (cv.parent c =? 1); [done | exact IH].
Qed.

Lemma preorder_top (found : list cv.ContourInfo) (fuel : nat) :
  has_top_level found -> cv.preorder (S fuel) found 1 <> [].
Proof. intros Ht. cbn [cv.preorder]. by apply flat_map_top. Qed.

Lemma scratch_get (m : cv.Mat) (p : cv.Point) :
  cv.get (cv.scratch m) p = 0 \/ cv.get (cv.scratch m) p = 1.
Proof.
  unfold cv.get. destruct (cv.inside _ _); [|by left].
  unfold cv.scratch. cbn [cv.pixels].
  destruct (nth_in_or_default (cv.offset (cv.mkImage (cv.cols m) (cv.rows m)
              (map (fun v => if v =? 0 then 0 else 1) (cv.data m))) p)
              (map (fun v => if v =? 0 then 0 else 1) (cv.data m)) 0)
    as [Hin | ->]; [|by left].
  apply in_map_iff in Hin as (v & <- & _). destruct (v =? 0); auto.
Qed.

Lemma nth_map_zero (f : Z -> Z) (l : list Z) (k : nat) :
  f 0 = 0 -> nth k (map f l) 0 = f (nth k l 0).
Proof.
  intros H0. revert k. induction l as [|v l IH]; intros [|k]; cbn [map nth];
    auto.
Qed.

(** A matrix whose scratch image reads zero all over holds only zeros. *)
Lemma scratch_zero (m : cv.Mat) :
  length (cv.data m) = cv.total m ->
  (forall y x, (y < Z.to_nat (cv.rows m))%nat ->
               (x < Z.to_nat (cv.cols m))%nat ->
               cv.get (cv.scratch m) (Z.of_nat x, Z.of_nat y) = 0) ->
  Forall (fun v => v = 0) (cv.data m).
Proof.
  intros Hl Hz. apply List.Forall_forall. intros v Hv.
  apply (In_nth _ _ 0) in Hv as (k & Hk & <-).
  rewrite Hl in Hk. unfold cv.total in Hk.
  set (R := Z.to_nat (cv.rows m)) in *. set (W := Z.to_nat (cv.cols m)) in *.
  assert (HW : (0 < W)%nat) by nia.
  assert (Hy : (k / W < R)%nat).
  { apply Nat.Div0.div_lt_upper_bound. lia. }
  assert (Hx : (k mod W < W)%nat) by (apply Nat.mod_upper_bound; lia).
  specialize (Hz (k / W)%nat (k mod W)%nat Hy Hx).
  unfold cv.get, cv.inside, cv.offset, cv.scratch in Hz.
  cbn [fst snd cv.width cv.height cv.pixels] in Hz.
  assert (Hcols : cv.cols m = Z.of_nat W) by (unfold W; lia).
  assert (Hrows : cv.rows m = Z.of_nat R) by (unfold R; lia).
  rewrite Hcols, Hrows in Hz.
  destruct (Z.leb_spec 0 (Z.of_nat (k mod W))); [|lia].
  destruct (Z.ltb_spec (Z.of_nat (k mod W)) (Z.of_nat W)); [|lia].
  destruct (Z.leb_spec 0 (Z.of_nat (k / W))); [|lia].
  destruct (Z.ltb_spec (Z.of_nat (k / W)) (Z.of_nat R)); [|lia].
  cbn [andb] in Hz.
  replace (Z.to_nat (Z.of_nat (k / W) * Z.of_nat W + Z.of_nat (k mod W)))
    with k in Hz.
  2: { rewrite <- Nat2Z.inj_mul, <- Nat2Z.inj_add, Nat2Z.id.
       rewrite (Nat.div_mod_eq k W) at 1. lia. }
  rewrite nth_map_zero in Hz by reflexivity.
  by destruct (Z.eqb_spec (nth k (cv.data m) 0) 0).
Qed.

Lemma findContours_not_blank (m : cv.Mat) :
  cv.channels m = 1 -> length (cv.data m) = cv.total m ->
  ~ Forall (fun v => v = 0) (cv.data m) ->
  exists c found,
    cv.findContours m cv.RETR_TREE cv.CHAIN_APPROX_SIMPLE =
    cv.Done (c :: found.1, found.2).
Proof.
  intros Hc Hl Hnz. unfold cv.findContours. rewrite Hc. cbn [Z.eqb Pos.eqb negb].
  destruct (scan_first (cv.scratch m) (scratch_get m)) as [Ht | Hz].
  - pose proof (preorder_top _ (length (cv.scan (cv.scratch m))) Ht) as Hp.
    destruct (cv.preorder _ _ 1) as [|c order]; [done|].
    exists (cv.contour c).
    exists (map cv.contour order, map (cv.links (c :: order)) (c :: order)).
    reflexivity.
  - exfalso. apply Hnz. by apply scratch_zero.
Qed.

Lemma trace_zero_iff_blank (h : gmap Z cv.Mat) (matAddr : Z) (m : cv.Mat) :
  matAddr <> 0 -> h !! matAddr = Some m -> cv.channels m = 1 ->
  length (cv.data m) = cv.total m ->
  nativeFindContours matAddr h = (Returned 0, h) <->
  Forall (fun v => v = 0) (cv.data m).
Proof.
  intros Hn Hm Hc Hl. rewrite (trace_live h matAddr m Hn Hm). split.
  - intros Hrun.
    destruct (decide (Forall (fun v => v = 0) (cv.data m))) as [Hz | Hnz];
      [done|].
    destruct (findContours_not_blank m Hc Hl Hnz) as (c & found & Hf).
    rewrite Hf in Hrun. cbn [fst length] in Hrun. injection Hrun as Hrun. lia.
  - intros Hz. by rewrite findContours_blank.
Qed.

(** X9. On a live single-channel buffer that is as long as its header
    says, the tracer returns the count 0 exactly when every pixel is zero: an
    image with a non-zero pixel has at least one contour. *)
Theorem traceContours_zero_iff_blank (h : gmap Z cv.Mat) (matAddr : Z)
    (m : cv.Mat) :
  matAddr <> 0 -> h !! matAddr = Some m -> cv.channels m = 1 ->
  length (cv.data m) = cv.total m ->
  nativeFindContours matAddr h = (Returned 0, h) <->
  Forall (fun v => v = 0) (cv.data m).
Proof. apply trace_zero_iff_blank. Qed.

(** *** The text of the report *)

Lemma to_int_proper (z : Z) :
  Z.to_int z <> Decimal.Pos Decimal.Nil /\ Z.to_int z <> Decimal.Neg Decimal.Nil.
Proof.
  destruct z as [|p|p]; cbn [Z.to_int]; split; try discriminate.
  - intros [= E]. by apply (DecimalPos.Unsigned.to_uint_nonnil p).
  - intros [= E]. by apply (DecimalPos.Unsigned.to_uint_nonnil p).
Qed.

Lemma to_string_inj (a b : Z) : to_string a = to_string b -> a = b.
Proof.
  unfold to_string. intros E. apply DecimalZ.to_int_inj.
  destruct (to_int_proper a) as [Ha1 Ha2], (to_int_proper b) as [Hb1 Hb2].
  pose proof (NilZero.isi _ Ha1 Ha2) as Ia.
  pose proof (NilZero.isi _ Hb1 Hb2) as Ib.
  rewrite E in Ia. rewrite Ia in Ib. by injection Ib.
Qed.

Lemma digits_free_of_x (d : Decimal.uint) :
  free_of "x"%char (NilEmpty.string_of_uint d).
Proof.
  induction d; cbn [NilEmpty.string_of_uint free_of]; try done;
    (split; [discriminate | done]).
Qed.

Lemma to_string_free_of_x (z : Z) : free_of "x"%char (to_string z).
Proof.
  unfold to_string, NilZero.string_of_int, NilZero.string_of_uint.
  destruct (Z.to_int z) as [d | d].
  - destruct d; try apply (digits_free_of_x (_ _)).
    cbn. split; [discriminate | done].
  - cbn [free_of]. split; [discriminate|].
    destruct d; try apply (digits_free_of_x (_ _)).
    cbn. split; [discriminate | done].
Qed.

(** Two texts cut at their first "x" agree part by part. *)
Lemma split_at_x (a a' b b' : string) :
  free_of "x"%char a -> free_of "x"%char a' ->
  (a ++ "x" ++ b)%string = (a' ++ "x" ++ b')%string -> a = a' /\ b = b'.
Proof.
  revert a'. induction a as [|c a IH]; intros [|c' a'] Ha Ha' E;
    simpl in Ha, Ha', E.
  - injection E as E. by subst.
  - injection E as Ec _. destruct Ha' as [Hx _]. by subst.
  - injection E as Ec _. destruct Ha as [Hx _]. by subst.
  - injection E as Ec E. destruct Ha as [_ Ha], Ha' as [_ Ha'].
    destruct (IH a' Ha Ha' E) as [Ea Eb]. by subst.
Qed.

Lemma append_cancel_l (s a b : string) :
  (s ++ a)%string = (s ++ b)%string -> a = b.
Proof.
  induction s as [|c s IH]; simpl; [done|]. intros [= E]. by apply IH.
Qed.

Lemma report_text_inj (c r c' r' : Z) :
  ("Image processed: " ++ to_string c ++ "x" ++ to_string r)%string =
  ("Image processed: " ++ to_string c' ++ "x" ++ to_string r')%string ->
  c = c' /\ r = r'.
Proof.
  intros E. apply append_cancel_l in E.
  destruct (split_at_x _ _ _ _ (to_string_free_of_x c) (to_string_free_of_x c') E)
    as [Hc Hr].
  split; by apply to_string_inj.
Qed.

Section MoreReport.

Variable luma : Z -> Z -> Z -> Z.

(** X11. The text of the report tells the dimensions: two calls of the
    report that return the same text were made on buffers of the same width
    and the same height. *)
Theorem report_tells_dimensions (h h' : gmap Z cv.Mat) (matAddr matAddr' : Z)
    (m m' : cv.Mat) (s : string) :
  matAddr <> 0 -> h !! matAddr = Some m ->
  matAddr' <> 0 -> h' !! matAddr' = Some m' ->
  nativeProcessImage luma matAddr h = (Returned s, h) ->
  nativeProcessImage luma matAddr' h' = (Returned s, h') ->
  cv.cols m = cv.cols m' /\ cv.rows m = cv.rows m'.
Proof.
  intros Hn Hm Hn' Hm' Hrun Hrun'.
  rewrite (report_live luma h matAddr m Hn Hm) in Hrun.
  rewrite (report_live luma h' matAddr' m' Hn' Hm') in Hrun'.
  destruct (cv.cvtColor luma m cv.COLOR_BGR2GRAY); [|done].
  destruct (cv.cvtColor luma m' cv.COLOR_BGR2GRAY); [|done].
  injection Hrun as Hs. injection Hrun' as Hs'. rewrite <- Hs' in Hs.
  by apply report_text_inj.
Qed.

End MoreReport.

(** *** The binarizer followed by the tracer *)

Lemma all_zero_fixed (d : list Z) :
  Forall (fun v => v = 0) (map (fun v => if 128 <? v then 255 else 0) d) <->
  Forall (fun v => v <= 128) d.
Proof.
  induction d as [|v d IH]; cbn [map]; [split; constructor|].
  rewrite !Forall_cons_iff, IH.
  destruct (Z.ltb_spec 128 v); split; intros [? ?]; split; (done || lia).
Qed.

Lemma flat_or_two_levels (d : list Z) :
  d <> [] ->
  (exists c, Forall (fun v => v = c) d) \/
  (exists a b, In a d /\ In b d /\ a < b).
Proof.
  induction d as [|v d IH]; [done|]. intros _.
  destruct d as [|w d]; [left; exists v; by repeat constructor|].
  destruct (IH ltac:(done)) as [[c Hc] | (a & b & Ha & Hb & Hab)].
  - destruct (Z.lt_total v c) as [Hlt | [-> | Hgt]].
    + right. exists v, c. split; [by left|]. split; [|done].
      right. left. by inversion Hc.
    + left. exists c. by constructor.
    + right. exists c, v. split; [|split; [by left | done]].
      right. left. by inversion Hc.
  - right. exists a, b. split; [by right|]. split; [by right | done].
Qed.

Lemma all_zero_auto (g : cv.Mat) :
  length (cv.data g) = cv.total g ->
  0 < Z.of_nat (cv.total g) < 8388608 ->
  Forall (fun v => 0 <= v < 256) (cv.data g) ->
  Forall (fun v => v = 0)
    (map (fun v => if cv.getThreshVal_Otsu_8u g <? v then 255 else 0)
       (cv.data g)) <->
  Forall (fun v => v = 0) (cv.data g).
Proof.
  intros Hl Hsz Hd. split.
  - intros Hout.
    assert (Hno : forall w, In w (cv.data g) -> w <= cv.getThreshVal_Otsu_8u g).
    { intros w Hw. rewrite List.Forall_forall in Hout.
      specialize (Hout _ (in_map _ _ _ Hw)). cbv beta in Hout.
      by destruct (Z.ltb_spec (cv.getThreshVal_Otsu_8u g) w). }
    assert (Hne : cv.data g <> []).
    { intros E. rewrite E in Hl. cbn [length] in Hl. lia. }
    destruct (flat_or_two_levels (cv.data g) Hne)
      as [[c Hc] | (a & b & Ha & Hb & Hab)].
    + assert (Hcr : 0 <= c < 256).
      { destruct (cv.data g) as [|v d]; [done|].
        inversion Hc; subst. by inversion Hd. }
      pose proof (otsu_flat g c Hl Hsz Hcr Hc) as HT0.
      eapply Forall_impl; [exact Hc|]. intros v ->.
      destruct (cv.data g) as [|v d]; [done|].
      inversion Hc; subst. specialize (Hno c (or_introl eq_refl)). lia.
    + destruct (otsu_splits g a b Hl ltac:(lia) Hd Ha Hb Hab)
        as (_ & (w & Hw & Hlt)).
      specialize (Hno w Hw). lia.
  - intros Hz. rewrite (otsu_flat g 0 Hl Hsz ltac:(lia) Hz).
    clear Hl Hsz Hd. induction Hz as [|v d -> _ IH]; cbn [map]; by constructor.
Qed.

Section MorePipeline.

Variable luma : Z -> Z -> Z -> Z.
Variable localMean : cv.AdaptiveThresholdTypes -> Z -> cv.Mat -> nat -> Z.

(** X13. The fixed global algorithm followed by the tracer, on a live
    grey buffer: the count is 0 exactly when no pixel of the buffer is
    greater than 128. *)
Theorem fixed_global_then_trace (h : gmap Z cv.Mat) (matAddr : Z) (g : cv.Mat) :
  matAddr <> 0 -> h !! matAddr = Some g -> cv.channels g = 1 ->
  length (cv.data g) = cv.total g ->
  nativeFindContours matAddr
    (nativeApplyDithering luma localMean matAddr 0 h).2 =
    (Returned 0, (nativeApplyDithering luma localMean matAddr 0 h).2) <->
  Forall (fun v => v <= 128) (cv.data g).
Proof.
  intros Hn Hg Hc Hl.
  rewrite (dither_single luma localMean h matAddr 0 g) by done. cbn [snd].
  rewrite <- all_zero_fixed.
  apply (trace_zero_iff_blank _ matAddr
           (cv.mkMat (cv.rows g) (cv.cols g) 1
              (map (fun v => if 128 <? v then 255 else 0) (cv.data g))));
    [done | apply lookup_insert_eq | reflexivity |].
  cbn [cv.data]. by rewrite length_map.
Qed.

(** X14. The automatic global algorithm followed by the tracer, on a live
    grey buffer of at least one and fewer than 2^23 pixels: the count is 0
    exactly when the buffer was all zero; every other image gives at least
    one contour. *)
Theorem auto_global_then_trace (h : gmap Z cv.Mat) (matAddr : Z) (g : cv.Mat) :
  matAddr <> 0 -> h !! matAddr = Some g -> cv.channels g = 1 ->
  length (cv.data g) = cv.total g ->
  0 < Z.of_nat (cv.total g) < 8388608 ->
  Forall (fun v => 0 <= v < 256) (cv.data g) ->
  nativeFindContours matAddr
    (nativeApplyDithering luma localMean matAddr 2 h).2 =
    (Returned 0, (nativeApplyDithering luma localMean matAddr 2 h).2) <->
  Forall (fun v => v = 0) (cv.data g).
Proof.
  intros Hn Hg Hc Hl Hsz Hd.
  rewrite (dither_single luma localMean h matAddr 2 g) by done. cbn [snd].
  rewrite <- (all_zero_auto g Hl Hsz Hd).
  apply (trace_zero_iff_blank _ matAddr
           (cv.mkMat (cv.rows g) (cv.cols g) 1
              (map (fun v => if cv.getThreshVal_Otsu_8u g <? v then 255 else 0)
                 (cv.data g))));
    [done | apply lookup_insert_eq | reflexivity |].
  cbn [cv.data]. by rewrite length_map.
Qed.

End MorePipeline.

(** ** The theorems at concrete buffers *)

Lemma caller_lookup (m : cv.Mat) : caller m !! 16 = Some m.
Proof. apply lookup_singleton_eq. Defined.

(** The fixed threshold around 128: 127 and 128 go to 0, 129 goes to 255. *)
Example fixed_global_boundaries :
  (nativeApplyDithering luma_8u flat_mean 16 0
     (caller (cv.mkMat 1 3 1 [127; 128; 129]))).2 !! 16 =
  Some (cv.mkMat 1 3 1 [0; 0; 255]).
Proof.
  rewrite (dither_single luma_8u flat_mean _ 16 0 (cv.mkMat 1 3 1 [127; 128; 129]))
    by (done || apply caller_lookup).
  cbn [snd]. by rewrite lookup_insert_eq.
Qed.

(** C2: a pixel at the threshold itself.  The specification's rule sends
    128 to the high level; the binarizer leaves 0 there. *)
Lemma fixed_global_at_128 :
  exists m',
    (nativeApplyDithering luma_8u flat_mean 16 0
       (caller (cv.mkMat 1 1 1 [128]))).2 !! 16 = Some m' /\
    cv.data m' = [0] /\
    cv.data m' <> map (at_or_above 128) [128].
Proof.
  eexists. rewrite (dither_single luma_8u flat_mean _ 16 0 (cv.mkMat 1 1 1 [128]))
    by (done || apply caller_lookup).
  cbn [snd]. rewrite lookup_insert_eq. split; [reflexivity|]. split; [reflexivity|].
  discriminate.
Qed.

(** C3: a zero-sized buffer.  The binarizer returns and reports no error. *)
Lemma zero_sized_buffer_accepted :
  nativeApplyDithering luma_8u flat_mean 16 7 (caller zero_sized) =
  (Returned tt, (caller zero_sized)).
Proof.
  by rewrite (dither_single luma_8u flat_mean _ 16 7 zero_sized)
    by (done || apply caller_lookup).
Qed.


(** The rounding at known values: a tenth and a third as binary64 holds
    them, and two integers half way between their neighbours, which go to
    the one of even significand. *)
Example rnd_samples :
  cv.rnd (1 # 10) = (3602879701896397 # 36028797018963968)%Q /\
  cv.rnd (1 # 3) = (6004799503160661 # 18014398509481984)%Q /\
  cv.rnd 9007199254740993 = 9007199254740992%Q /\
  cv.rnd 9007199254740995 = 9007199254740996%Q.
Proof. repeat split; vm_compute; reflexivity. Qed.

(** Rounding at work: on three pixels at three levels in a row the cuts at
    the first and at the second level have the same exact variance, and
    the loop, which would keep the first of two equal values, keeps the
    second, whose computed variance comes out greater. *)
Example otsu_rounding :
  cv.getThreshVal_Otsu_8u (cv.mkMat 1 3 1 [0; 1; 2]) = 1 /\
  cv.getThreshVal_Otsu_8u (cv.mkMat 1 3 1 [12; 13; 14]) = 13.
Proof. split; vm_compute; reflexivity. Qed.


(** C9: a valid grey buffer of one pixel.  The method hands it to the
    colour conversion as it is, the conversion raises, and no text is
    returned; the binarizer guards the same conversion by the channel
    count. *)
Lemma report_grey_buffer_raises :
  nativeProcessImage luma_8u 16 (caller (cv.mkMat 1 1 1 [7])) =
  (Thrown cv.BadNumberOfChannels, (caller (cv.mkMat 1 1 1 [7]))).
Proof.
  by rewrite (report_live luma_8u _ 16 (cv.mkMat 1 1 1 [7]))
    by (done || apply caller_lookup).
Qed.

(** The theorems above that have premises, each at a buffer that meets
    them. *)

Lemma colour_pair_valid : valid_buffer (caller colour_pair) 16 colour_pair.
Proof.
  unfold valid_buffer. split; [discriminate|].
  split; [apply caller_lookup|]. split; [reflexivity|].
  split; [reflexivity|]. split; [right; reflexivity | reflexivity].
Defined.

Lemma binarize_two_levels_witness :
  valid_buffer (caller colour_pair) 16 colour_pair /\
  exists m',
    nativeApplyDithering luma_8u flat_mean 16 2 (caller colour_pair) =
      (Returned tt, <[16 := m']> (caller colour_pair)) /\
    cv.rows m' = cv.rows colour_pair /\ cv.cols m' = cv.cols colour_pair /\
    binary_image m'.
Proof.
  split; [exact colour_pair_valid|].
  apply (binarize_two_levels luma_8u flat_mean _ 16 2 colour_pair
           colour_pair_valid).
  right; right; reflexivity.
Defined.

Lemma fixed_global_strict_witness :
  valid_buffer (caller colour_pair) 16 colour_pair /\
  exists g m',
    grayscaleOnly luma_8u 16 (caller colour_pair) =
      (Returned tt, <[16 := g]> (caller colour_pair)) /\
    nativeApplyDithering luma_8u flat_mean 16 0 (caller colour_pair) =
      (Returned tt, <[16 := m']> (caller colour_pair)) /\
    length (cv.data m') = length (cv.data g) /\
    forall k v, cv.data g !! k = Some v ->
      exists o, cv.data m' !! k = Some o /\
                (o = 255 <-> 128 < v) /\ (o = 0 <-> v <= 128).
Proof.
  split; [exact colour_pair_valid|].
  exact (fixed_global_strict luma_8u flat_mean _ 16 colour_pair
           colour_pair_valid).
Defined.

Lemma zero_sized_run :
  nativeApplyDithering luma_8u flat_mean 16 7 (caller zero_sized) =
  (Returned tt, (caller zero_sized)).
Proof.
  by rewrite (dither_single luma_8u flat_mean _ 16 7 zero_sized)
    by (done || apply caller_lookup).
Defined.

Lemma binarize_failures_witness :
  nativeApplyDithering luma_8u flat_mean 16 7 (caller zero_sized) =
    (Returned tt, (caller zero_sized)) /\
  (16 = 0 -> Returned tt = @Fault unit) /\
  (Returned tt <> Returned tt -> (caller zero_sized) = (caller zero_sized)) /\
  (forall m, valid_buffer (caller zero_sized) 16 m -> Returned tt = Returned tt) /\
  (forall m, 16 <> 0 -> caller zero_sized !! 16 = Some m ->
             cv.channels m = 1 -> 7 <> 0 -> 7 <> 1 -> 7 <> 2 ->
             Returned tt = Returned tt /\
             caller zero_sized = (caller zero_sized)).
Proof.
  split; [exact zero_sized_run|].
  exact (binarize_failures luma_8u flat_mean _ _ 16 7 _ zero_sized_run).
Defined.

Lemma unknown_selector_grayscale_only_witness :
  7 <> 0 /\ 7 <> 1 /\ 7 <> 2 /\
  nativeApplyDithering luma_8u flat_mean 16 7 (caller colour_pair) =
    grayscaleOnly luma_8u 16 (caller colour_pair) /\
  forall g, 16 <> 0 ->
    caller colour_pair !! 16 = Some g ->
    cv.channels g = 1 ->
    nativeApplyDithering luma_8u flat_mean 16 7 (caller colour_pair) =
      (Returned tt, (caller colour_pair)).
Proof.
  split; [discriminate|]. split; [discriminate|]. split; [discriminate|].
  apply (unknown_selector_grayscale_only luma_8u flat_mean _ 16 7);
    discriminate.
Defined.

Lemma fixed_global_idempotent_witness :
  16 <> 0 /\
  nativeApplyDithering luma_8u flat_mean 16 0
    (nativeApplyDithering luma_8u flat_mean 16 0 (caller grey_pair)).2 =
  nativeApplyDithering luma_8u flat_mean 16 0 (caller grey_pair).
Proof.
  split; [discriminate|].
  apply (fixed_global_idempotent luma_8u flat_mean _ 16 grey_pair);
    [discriminate | apply caller_lookup | reflexivity].
Defined.

Lemma bimodal_levels : Forall (fun v => 0 <= v < 256) (cv.data bimodal).
Proof. repeat constructor; discriminate. Defined.



Lemma colour_pair_report :
  nativeProcessImage luma_8u 16 (caller colour_pair) =
  (Returned "Image processed: 2x1"%string, (caller colour_pair)).
Proof.
  rewrite (report_live luma_8u _ 16 colour_pair)
    by (discriminate || apply caller_lookup).
  reflexivity.
Defined.

Lemma report_leaves_buffer_witness :
  nativeProcessImage luma_8u 16 (caller colour_pair) =
    (Returned "Image processed: 2x1"%string, (caller colour_pair)) /\
  caller colour_pair = (caller colour_pair) /\
  (forall s, Returned "Image processed: 2x1"%string = Returned s ->
     exists m, caller colour_pair !! 16 = Some m /\
       s = ("Image processed: " ++ to_string (cv.cols m) ++ "x"
              ++ to_string (cv.rows m))%string) /\
  (forall m, 16 <> 0 ->
     caller colour_pair !! 16 = Some m ->
     0 < cv.rows m -> 0 < cv.cols m ->
     cv.channels m = 3 \/ cv.channels m = 4 ->
     Returned "Image processed: 2x1"%string =
     Returned ("Image processed: " ++ to_string (cv.cols m) ++ "x"
                 ++ to_string (cv.rows m))%string) /\
  (forall m, 16 <> 0 ->
     caller colour_pair !! 16 = Some m ->
     cv.channels m <> 3 -> cv.channels m <> 4 ->
     exists e, Returned "Image processed: 2x1"%string = Thrown e).
Proof.
  split; [exact colour_pair_report|].
  exact (report_leaves_buffer luma_8u _ _ 16 _ colour_pair_report).
Defined.

(** The further properties that have premises, each at a buffer that meets
    them. *)

Lemma colour_pair_run :
  nativeApplyDithering luma_8u flat_mean 16 0 (caller colour_pair) =
  (Returned tt, caller binarized_pair).
Proof.
  rewrite (dither_multi luma_8u flat_mean _ 16 0 colour_pair
             (cv.mkMat 1 2 1 [22; 212]))
    by (discriminate || apply caller_lookup || reflexivity).
  rewrite (dither_single luma_8u flat_mean _ 16 0 (cv.mkMat 1 2 1 [22; 212]))
    by (discriminate || apply lookup_insert_eq || reflexivity).
  unfold caller. by rewrite insert_insert_eq, insert_singleton_eq.
Defined.

Lemma colour_pair_length :
  length (cv.data colour_pair) =
  (cv.total colour_pair * Z.to_nat (cv.channels colour_pair))%nat.
Proof. reflexivity. Defined.

Lemma binarize_postcondition_witness :
  exists m',
    caller binarized_pair !! 16 = Some m' /\
    cv.rows m' = cv.rows colour_pair /\ cv.cols m' = cv.cols colour_pair /\
    cv.channels m' = 1 /\ length (cv.data m') = cv.total m' /\
    (0 = 0 \/ 0 = 1 \/ 0 = 2 ->
     Forall (fun v => v = 0 \/ v = 255) (cv.data m')).
Proof.
  apply (binarize_postcondition luma_8u flat_mean (caller colour_pair) _ 16 0
           colour_pair);
    [discriminate | apply caller_lookup | discriminate
    | exact colour_pair_length | exact colour_pair_run].
Defined.

Lemma binarized_pair_binary : binary_image binarized_pair.
Proof.
  split; [reflexivity|]. split; [reflexivity|].
  constructor; [left; reflexivity|]. constructor; [right; reflexivity|].
  constructor.
Defined.

Lemma binary_image_fixed_witness :
  binary_image binarized_pair /\
  nativeApplyDithering luma_8u flat_mean 16 2 (caller binarized_pair) =
  (Returned tt, caller binarized_pair).
Proof.
  split; [exact binarized_pair_binary|].
  apply (binary_image_fixed luma_8u flat_mean _ 16 2 binarized_pair);
    [discriminate | apply caller_lookup | exact binarized_pair_binary
    | split; reflexivity | right; reflexivity].
Defined.

Lemma grey_pair_levels : Forall (fun v => 0 <= v < 256) (cv.data grey_pair).
Proof. repeat constructor; discriminate. Defined.

Lemma auto_global_keeps_both_levels_witness :
  10 < 240 /\
  exists m',
    nativeApplyDithering luma_8u flat_mean 16 2 (caller grey_pair) =
      (Returned tt, <[16 := m']> (caller grey_pair)) /\
    In 0 (cv.data m') /\ In 255 (cv.data m').
Proof.
  split; [reflexivity|].
  apply (auto_global_keeps_both_levels luma_8u flat_mean _ 16 grey_pair 10 240);
    [discriminate | apply caller_lookup | reflexivity | reflexivity
    | split; reflexivity | exact grey_pair_levels | left; reflexivity
    | right; left; reflexivity | reflexivity].
Defined.

Lemma auto_global_flat_image_witness :
  Forall (fun v => v = 7) (cv.data flat_pair) /\
  cv.getThreshVal_Otsu_8u flat_pair = 0 /\
  nativeApplyDithering luma_8u flat_mean 16 2 (caller flat_pair) =
    (Returned tt,
     <[16 := cv.mkMat (cv.rows flat_pair) (cv.cols flat_pair) 1
         (map (fun _ => if 7 =? 0 then 0 else 255) (cv.data flat_pair))]>
       (caller flat_pair)).
Proof.
  assert (Hf : Forall (fun v => v = 7) (cv.data flat_pair))
    by (repeat constructor).
  split; [exact Hf|].
  apply (auto_global_flat_image luma_8u flat_mean _ 16 flat_pair 7);
    [discriminate | apply caller_lookup | reflexivity | reflexivity
    | split; reflexivity
    | split; [discriminate | reflexivity] | exact Hf].
Defined.


Lemma binarize_then_report_witness :
  nativeApplyDithering luma_8u flat_mean 16 0 (caller colour_pair) =
    (Returned tt, caller binarized_pair) /\
  nativeProcessImage luma_8u 16 (caller binarized_pair) =
  (Thrown (if cv.empty colour_pair then cv.EmptyInput
           else cv.BadNumberOfChannels), caller binarized_pair).
Proof.
  split; [exact colour_pair_run|].
  apply (binarize_then_report luma_8u flat_mean (caller colour_pair) _ 16 0
           colour_pair);
    [discriminate | apply caller_lookup | discriminate
    | exact colour_pair_length | exact colour_pair_run].
Defined.

Lemma report_and_binarize_agree_witness :
  1 < cv.channels colour_pair /\
  ((exists s, (nativeProcessImage luma_8u 16 (caller colour_pair)).1
              = Returned s) <->
   (nativeApplyDithering luma_8u flat_mean 16 1 (caller colour_pair)).1
   = Returned tt) /\
  (forall e,
     (nativeProcessImage luma_8u 16 (caller colour_pair)).1 = Thrown e <->
     (nativeApplyDithering luma_8u flat_mean 16 1 (caller colour_pair)).1
     = Thrown e).
Proof.
  split; [reflexivity|].
  apply (report_and_binarize_agree luma_8u flat_mean _ 16 1 colour_pair);
    [discriminate | apply caller_lookup | reflexivity].
Defined.

Lemma traceContours_zero_iff_blank_witness :
  nativeFindContours 16 (caller background) = (Returned 0, caller background)
  <-> Forall (fun v => v = 0) (cv.data background).
Proof.
  apply (traceContours_zero_iff_blank _ 16 background);
    [discriminate | apply caller_lookup | reflexivity | reflexivity].
Defined.

Lemma colour_pair_text :
  nativeProcessImage luma_8u 16 (caller colour_pair) =
  (Returned "Image processed: 2x1"%string, caller colour_pair).
Proof.
  rewrite (report_live luma_8u _ 16 colour_pair)
    by (discriminate || apply caller_lookup).
  reflexivity.
Defined.

Lemma two_buffers_text :
  nativeProcessImage luma_8u 16 two_buffers =
  (Returned "Image processed: 2x1"%string, two_buffers).
Proof.
  rewrite (report_live luma_8u _ 16 colour_pair)
    by (discriminate || (unfold two_buffers;
          rewrite lookup_insert_ne by discriminate; apply caller_lookup)).
  reflexivity.
Defined.

Lemma two_buffers_lookup : two_buffers !! 16 = Some colour_pair.
Proof.
  unfold two_buffers. rewrite lookup_insert_ne by discriminate.
  apply caller_lookup.
Defined.

Lemma report_tells_dimensions_witness :
  nativeProcessImage luma_8u 16 (caller colour_pair) =
    (Returned "Image processed: 2x1"%string, caller colour_pair) /\
  nativeProcessImage luma_8u 16 two_buffers =
    (Returned "Image processed: 2x1"%string, two_buffers) /\
  cv.cols colour_pair = cv.cols colour_pair /\
  cv.rows colour_pair = cv.rows colour_pair.
Proof.
  split; [exact colour_pair_text|]. split; [exact two_buffers_text|].
  apply (report_tells_dimensions luma_8u (caller colour_pair) two_buffers
           16 16 colour_pair colour_pair "Image processed: 2x1"%string);
    [discriminate | apply caller_lookup | discriminate
    | exact two_buffers_lookup | exact colour_pair_text
    | exact two_buffers_text].
Defined.

Lemma fixed_global_then_trace_witness :
  nativeFindContours 16
    (nativeApplyDithering luma_8u flat_mean 16 0 (caller grey_pair)).2 =
    (Returned 0, (nativeApplyDithering luma_8u flat_mean 16 0
                    (caller grey_pair)).2) <->
  Forall (fun v => v <= 128) (cv.data grey_pair).
Proof.
  apply (fixed_global_then_trace luma_8u flat_mean _ 16 grey_pair);
    [discriminate | apply caller_lookup | reflexivity | reflexivity].
Defined.

Lemma bimodal_range : Forall (fun v => 0 <= v < 256) (cv.data bimodal).
Proof. repeat constructor; discriminate. Defined.

Lemma auto_global_then_trace_witness :
  nativeFindContours 16
    (nativeApplyDithering luma_8u flat_mean 16 2 (caller bimodal)).2 =
    (Returned 0, (nativeApplyDithering luma_8u flat_mean 16 2
                    (caller bimodal)).2) <->
  Forall (fun v => v = 0) (cv.data bimodal).
Proof.
  apply (auto_global_then_trace luma_8u flat_mean _ 16 bimodal);
    [discriminate | apply caller_lookup | reflexivity | reflexivity
    | split; reflexivity | exact bimodal_range].
Defined.
